(** * Charm metadata: action schemas and resource descriptors

    A shallow embedding of the Go package [charm] (actions: [cleanse],
    [recurseMapOnKeys], [ReadActionsYaml], [ActionSpec.ValidateParams]) and of
    [resource/meta.go] ([ParseMeta], [Meta.Validate]), followed by the
    properties the specification states about them.

    Layout: the first part holds the model (modules [Go], [Regexp], [Charm],
    [Resource]); the second part holds the theorems. *)

From Equations Require Import Equations.
From Stdlib Require Import List String Ascii ZArith Bool Arith Lia Permutation.
Import ListNotations.
Local Open Scope string_scope.

Set Warnings "-register-all".

(* ===================================================================== *)
(** * Part I: the model                                                   *)
(* ===================================================================== *)

(** ** Go values of type [interface{}] as a YAML decoder produces them *)

Module Go.

(** Hashable dynamic values: the only ones Go accepts as keys of a
    [map[interface{}]interface{}].  [SNil] is the nil interface; [SFloat]
    carries the bit pattern of a float64, which the package never inspects. *)
Inductive scalar :=
| SNil
| SBool (b : bool)
| SInt (n : Z)
| SFloat (bits : Z)
| SStr (s : string).

(** A Go map is a list of entries with pairwise distinct keys; the order of
    the list is the order in which [range] happens to visit the entries,
    which Go leaves unspecified.  Statements quantified over all lists hold
    for every visiting order. *)
Inductive iface :=
| VScalar (c : scalar)
| VSlice (l : list iface)                 (* []interface{} *)
| VMapS (m : list (string * iface))       (* map[string]interface{} *)
| VMapI (m : list (scalar * iface)).      (* map[interface{}]interface{} *)

Abbreviation VNil := (VScalar SNil).
Abbreviation VStr s := (VScalar (SStr s)).
Abbreviation VInt n := (VScalar (SInt n)).

Definition smap := list (string * iface).
Definition imap := list (scalar * iface).

Section StringMaps.
Context {V : Type}.

(** [m[k]] read as an optional value. *)
Fixpoint map_get (k : string) (m : list (string * V)) : option V :=
  match m with
  | [] => None
  | (k', v) :: rest => if String.eqb k k' then Some v else map_get k rest
  end.

(** [m[k] = v]: overwrite the entry for [k] where it stands, or add one. *)
Fixpoint map_set (k : string) (v : V) (m : list (string * V)) : list (string * V) :=
  match m with
  | [] => [(k, v)]
  | (k', v') :: rest =>
      if String.eqb k k' then (k, v) :: rest else (k', v') :: map_set k v rest
  end.
End StringMaps.

(** [answer, ok := params[key]]: a missing key reads as the nil interface. *)
Definition map_index (params : smap) (key : string) : iface * bool :=
  match map_get key params with
  | Some answer => (answer, true)
  | None => (VNil, false)
  end.

(** Size of a tree; an interface-keyed map counts one more than a
    string-keyed one with the same entries. *)
Fixpoint vsize (v : iface) : nat :=
  match v with
  | VScalar _ => 1
  | VSlice l => S (fold_right (fun x n => vsize x + n) 0 l)
  | VMapS m => S (fold_right (fun kv n => vsize (snd kv) + n) 0 m)
  | VMapI m => S (S (fold_right (fun kv n => vsize (snd kv) + n) 0 m))
  end.

Definition inspect {A} (a : A) : {b : A | a = b} := exist _ a eq_refl.

End Go.

(** ** Regular expressions, as far as the action-name rule needs them *)

Module Regexp.

(** The syntax tree of a pattern between [^] and [$]. *)
Inductive regexp :=
| Void                                  (* matches nothing *)
| Eps                                   (* the empty string *)
| Class (member : ascii -> bool)        (* a character class *)
| Cat (r1 r2 : regexp)
| Alt (r1 r2 : regexp)
| Star (r : regexp).

(** [(?:r)?] *)
Definition Quest (r : regexp) : regexp := Alt r Eps.

Fixpoint nullable (r : regexp) : bool :=
  match r with
  | Void => false
  | Eps => true
  | Class _ => false
  | Cat r1 r2 => nullable r1 && nullable r2
  | Alt r1 r2 => nullable r1 || nullable r2
  | Star _ => true
  end.

(** What is left of [r] after reading the character [c]. *)
Fixpoint deriv (c : ascii) (r : regexp) : regexp :=
  match r with
  | Void => Void
  | Eps => Void
  | Class member => if member c then Eps else Void
  | Cat r1 r2 =>
      if nullable r1 then Alt (Cat (deriv c r1) r2) (deriv c r2)
      else Cat (deriv c r1) r2
  | Alt r1 r2 => Alt (deriv c r1) (deriv c r2)
  | Star r1 => Cat (deriv c r1) (Star r1)
  end.

Fixpoint matches (r : regexp) (s : string) : bool :=
  match s with
  | EmptyString => nullable r
  | String c rest => matches (deriv c r) rest
  end.

(** [re.MatchString(s)] for a pattern [^r$] compiled without flags: [^]
    and [$] stand for the beginning and the end of the text, so the whole
    of [s] has to match [r].  Strings are sequences of bytes; the classes
    used below hold ASCII characters only, and no byte of a multi-byte
    UTF-8 sequence is one. *)
Definition MatchString (r : regexp) (s : string) : bool := matches r s.

(** [[a-z]] *)
Definition lower (c : ascii) : bool :=
  (97 <=? nat_of_ascii c)%nat && (nat_of_ascii c <=? 122)%nat.

(** [[a-z-]] *)
Definition lower_or_hyphen (c : ascii) : bool :=
  lower c || (nat_of_ascii c =? 45)%nat.

End Regexp.

(** ** The package [charm]: actions *)

Module Charm.
Import Go Regexp.

(** The errors the package builds, one constructor per message format.
    [ErrExternal] is an error handed back by a collaborator (the reader,
    the YAML decoder, the JSON-schema library), kept by its text. *)
Inductive error :=
| ErrExternal (msg : string)
| ErrBadActionName (name : string)        (* "bad action name %s" *)
| ErrMustBeString (key : string)          (* "value for schema key %q must be a string" *)
| ErrMustBeList (key : string)            (* "value for schema key %q must be a YAML list" *)
| ErrParamsNotMap                         (* "params failed to parse as a map" *)
| ErrProhibitedKey (key : string)         (* "schema key %q not compatible with this version of juju" *)
| ErrNonStringKey                         (* "map keyed with non-string value" *)
| ErrInvalidSchema (name : string) (cause : error)
                                          (* Annotatef(err, "invalid params schema for action schema %s", name) *)
| ErrValidationFailed (joined : string).  (* "JSON validation failed: %s" *)

Inductive result (A : Type) :=
| Ok (a : A)
| Err (e : error).
Arguments Ok {A} a.
Arguments Err {A} e.

(** [var prohibitedSchemaKeys = map[string]bool{"$ref": true, "$schema": true}] *)
Definition prohibitedSchemaKeys (key : string) : bool :=
  String.eqb key "$ref" || String.eqb key "$schema".

(** The loop of the [map[string]interface{}] case of [cleanse]; [rec] is
    [cleanse] itself, restricted to the values of the map. *)
Fixpoint cleanse_map (typedInput : smap)
  : (forall key value, In (key, value) typedInput -> result iface) ->
    smap -> result iface :=
  match typedInput with
  | [] => fun _ newMap => Ok (VMapS newMap)
  | (key, value) :: rest => fun rec newMap =>
      if prohibitedSchemaKeys key then Err (ErrProhibitedKey key)
      else
        match rec key value (or_introl eq_refl) with
        | Err err => Err err
        | Ok newValue =>
            cleanse_map rest (fun k v H => rec k v (or_intror H))
                        (map_set key newValue newMap)
        end
  end.

(** The loop of the [map[interface{}]interface{}] case: coerce every key. *)
Fixpoint cleanse_keys (typedInput : imap) (newMap : smap) : result smap :=
  match typedInput with
  | [] => Ok newMap
  | (SStr typedKey, value) :: rest => cleanse_keys rest (map_set typedKey value newMap)
  | _ :: _ => Err ErrNonStringKey
  end.

(** The loop of the [[]interface{}] case.  Whatever error the element
    produced, the loop answers with a fresh "map keyed with non-string
    value". *)
Fixpoint cleanse_slice (typedInput : list iface)
  : (forall sliceValue, In sliceValue typedInput -> result iface) ->
    list iface -> result iface :=
  match typedInput with
  | [] => fun _ newSlice => Ok (VSlice newSlice)
  | sliceValue :: rest => fun rec newSlice =>
      match rec sliceValue (or_introl eq_refl) with
      | Err _ => Err ErrNonStringKey
      | Ok newSliceValue =>
          cleanse_slice rest (fun v H => rec v (or_intror H))
                        (newSlice ++ [newSliceValue])
      end
  end.

(** [func cleanse(input interface{}) (interface{}, error)].  In the
    interface-keyed case the coerced [newMap] is handed to [cleanse] again,
    which visits it in the order its entries were added. *)
Equations? cleanse (input : iface) : result iface by wf (vsize input) lt :=
  cleanse (VMapS typedInput) :=
    cleanse_map typedInput (fun _ value _ => cleanse value) [];
  cleanse (VMapI typedInput) with inspect (cleanse_keys typedInput []) := {
    | @exist (Err err) _ := Err err
    | @exist (Ok newMap) Hkeys := cleanse (VMapS newMap) };
  cleanse (VSlice typedInput) :=
    cleanse_slice typedInput (fun sliceValue _ => cleanse sliceValue) [];
  cleanse input := Ok input.
Proof.
  - (* an element of a slice is smaller than the slice *)
    clear cleanse.
    match goal with H : In _ _ |- _ => revert H end.
    induction typedInput as [|x l IH]; simpl; [tauto|].
    intros [->|Hin]; [lia|]. specialize (IH Hin). lia.
  - (* a value of a map is smaller than the map *)
    clear cleanse.
    match goal with H : In _ _ |- _ => revert H end.
    induction typedInput as [|[k x] m IH]; simpl; [tauto|].
    intros [Heq|Hin]; [inversion Heq; subst; lia|]. specialize (IH Hin). lia.
  - (* the coerced map is smaller than the interface-keyed map *)
    clear cleanse.
    match goal with H : cleanse_keys _ _ = _ |- _ => rename H into Hkeys end.
    enough (G : forall (m : imap) (acc out : smap),
               cleanse_keys m acc = Ok out ->
               fold_right (fun kv n => vsize (snd kv) + n) 0 out
               <= fold_right (fun kv n => vsize (snd kv) + n) 0 m
                  + fold_right (fun kv n => vsize (snd kv) + n) 0 acc).
    { specialize (G _ _ _ Hkeys). simpl in G. lia. }
    clear. induction m as [|[k x] m IH]; simpl; intros acc out H.
    + inversion H; subst. lia.
    + destruct k; try discriminate. apply IH in H.
      enough (fold_right (fun kv n => vsize (snd kv) + n) 0 (map_set s x acc)
              <= vsize x + fold_right (fun kv n => vsize (snd kv) + n) 0 acc) by lia.
      clear. induction acc as [|[k' x'] acc IHa]; simpl; [lia|].
      destruct (String.eqb s k'); simpl; lia.
Qed.

(** [func recurseMapOnKeys(keys []string, params map[string]interface{})
    (interface{}, bool)], with its loop over an interface-keyed value
    first.  [None] there: a key that is not a string was met. *)
Fixpoint recurse_keys (typed : imap) (m : smap) : option smap :=
  match typed with
  | [] => Some m
  | (SStr tK, v) :: rest => recurse_keys rest (map_set tK v m)
  | _ :: _ => None
  end.

(** [None] is the run-time panic of [keys[0]] on an empty [keys]. *)
Fixpoint recurseMapOnKeys (keys : list string) (params : smap)
  : option (iface * bool) :=
  match keys with
  | [] => None
  | key :: rest =>
      let (answer, ok) := map_index params key in
      match rest with
      | [] => Some (answer, ok)
      | _ :: _ =>
          if negb ok then Some (VNil, false)
          else
            match answer with
            | VMapS typed => recurseMapOnKeys rest typed
            | VMapI typed =>
                match recurse_keys typed [] with
                | Some m => recurseMapOnKeys rest m
                | None => Some (VNil, false)
                end
            | _ => Some (VNil, false)
            end
      end
  end.

(** [var actionNameRule = regexp.MustCompile("^[a-z](?:[a-z-]*[a-z])?$")] *)
Definition actionNameRule : regexp :=
  Cat (Class lower) (Quest (Cat (Star (Class lower_or_hyphen)) (Class lower))).

Record ActionSpec := {
  Description : string;
  Params : smap
}.

Record Actions := {
  ActionSpecs : list (string * ActionSpec)
}.

(** What [results := specSchemaDoc.Validate(params)] exposes: [Valid()] and
    [Errors()], each error given by its [String()]. *)
Record ValidationResult := {
  Valid : bool;
  Errors : list string
}.

(** What a collaborator outside the package hands back: a value, or an
    error of its own, of which the package only ever uses the text. *)
Inductive outcome (A : Type) :=
| Done (a : A)
| Failed (msg : string).
Arguments Done {A} a.
Arguments Failed {A} msg.

(** The collaborators: the reader handed to [ReadActionsYaml] with
    [ioutil.ReadAll], [yaml.Unmarshal] into a
    [map[string]map[string]interface{}], and the gojsonschema library. *)
Record External := {
  Reader : Type;
  ReadAll : Reader -> outcome string;
  Unmarshal : string -> outcome (list (string * smap));
  JsonSchemaDocument : Type;
  NewJsonSchemaDocument : iface -> outcome JsonSchemaDocument;
  Validate : JsonSchemaDocument -> iface -> ValidationResult
}.

(** [strings.Join(elems, sep)] *)
Definition Join (elems : list string) (sep : string) : string :=
  String.concat sep elems.

(** [func (spec *ActionSpec) ValidateParams(params interface{}) (bool, error)];
    [None] is the nil error. *)
Definition ValidateParams (X : External) (spec : ActionSpec) (params : iface)
  : bool * option error :=
  match NewJsonSchemaDocument X (VMapS (Params spec)) with
  | Failed err => (false, Some (ErrExternal err))
  | Done specSchemaDoc =>
      let results := Validate X specSchemaDoc params in
      if Valid results then (true, None)
      else
        let errorStrings := Errors results in
        (false, Some (ErrValidationFailed (Join errorStrings "; ")))
  end.

(** The schema every action starts from (the map literal of
    [thisActionSchema]). *)
Definition scaffold (name : string) : smap :=
  [ ("description", VStr "No description");
    ("type", VStr "object");
    ("title", VStr name);
    ("properties", VMapS []) ].

(** [for key, value := range actionSpec { switch key { ... } }], threading
    [desc] and [thisActionSchema]. *)
Fixpoint range_actionSpec (actionSpec : smap) (desc : string)
         (thisActionSchema : smap) : result (string * smap) :=
  match actionSpec with
  | [] => Ok (desc, thisActionSchema)
  | (key, value) :: rest =>
      if String.eqb key "description" then
        match value with
        | VStr typed =>
            range_actionSpec rest typed (map_set key (VStr typed) thisActionSchema)
        | _ => Err (ErrMustBeString key)
        end
      else if String.eqb key "title" then
        match value with
        | VStr typed =>
            range_actionSpec rest desc (map_set key (VStr typed) thisActionSchema)
        | _ => Err (ErrMustBeString key)
        end
      else if String.eqb key "required" then
        match value with
        | VSlice typed =>
            range_actionSpec rest desc (map_set key (VSlice typed) thisActionSchema)
        | _ => Err (ErrMustBeList key)
        end
      else if String.eqb key "params" then
        match cleanse value with
        | Err err => Err err
        | Ok (VMapS typed) =>
            range_actionSpec rest desc (map_set "properties" (VMapS typed) thisActionSchema)
        | Ok _ => Err ErrParamsNotMap
        end
      else
        match cleanse value with
        | Err err => Err err
        | Ok typed =>
            range_actionSpec rest desc (map_set key typed thisActionSchema)
        end
  end.

(** [for name, actionSpec := range unmarshaledActions { ... }], threading
    [result.ActionSpecs]. *)
Fixpoint range_actions (X : External) (unmarshaledActions : list (string * smap))
         (specs : list (string * ActionSpec)) : result Actions :=
  match unmarshaledActions with
  | [] => Ok {| ActionSpecs := specs |}
  | (name, actionSpec) :: rest =>
      if negb (MatchString actionNameRule name) then Err (ErrBadActionName name)
      else
        match range_actionSpec actionSpec "No description" (scaffold name) with
        | Err err => Err err
        | Ok (desc, thisActionSchema) =>
            match NewJsonSchemaDocument X (VMapS thisActionSchema) with
            | Failed err => Err (ErrInvalidSchema name (ErrExternal err))
            | Done _ =>
                range_actions X rest
                  (map_set name {| Description := desc; Params := thisActionSchema |} specs)
            end
        end
  end.

(** [func ReadActionsYaml(r io.Reader)], returning the [Actions] or the
    error. *)
Definition ReadActionsYaml (X : External) (r : Reader X) : result Actions :=
  match ReadAll X r with
  | Failed err => Err (ErrExternal err)
  | Done data =>
      match Unmarshal X data with
      | Failed err => Err (ErrExternal err)
      | Done unmarshaledActions => range_actions X unmarshaledActions []
      end
  end.

(** The text of an error ([err.Error()]).  [%q] is rendered by wrapping the
    key in double quotes, which is what Go prints for the keys the package
    formats this way: [description], [title], [required], [$ref] and
    [$schema]. *)
Definition dquote : string := String (ascii_of_nat 34) EmptyString.

Fixpoint error_text (err : error) : string :=
  match err with
  | ErrExternal msg => msg
  | ErrBadActionName name => "bad action name " ++ name
  | ErrMustBeString key =>
      "value for schema key " ++ dquote ++ key ++ dquote ++ " must be a string"
  | ErrMustBeList key =>
      "value for schema key " ++ dquote ++ key ++ dquote ++ " must be a YAML list"
  | ErrParamsNotMap => "params failed to parse as a map"
  | ErrProhibitedKey key =>
      "schema key " ++ dquote ++ key ++ dquote
      ++ " not compatible with this version of juju"
  | ErrNonStringKey => "map keyed with non-string value"
  | ErrInvalidSchema name cause =>
      "invalid params schema for action schema " ++ name ++ ": " ++ error_text cause
  | ErrValidationFailed joined => "JSON validation failed: " ++ joined
  end.

End Charm.

(** ** The package [resource]: resource descriptors *)

Module Resource.
Import Go.

(** Modelled from the spec: the resource type and its functions
    ([Type], [TypeUnknown], [TypeFile], [ParseType], [Type.Validate]) are
    declared in a file that is not among the sources.  The spec describes
    "an enumerated tag ([file], and an explicit [unknown] sentinel for
    absent/invalid input)" that "must validate against a fixed permitted
    set".  [TypeUnrecognized] stands for any other value of the Go type,
    the one the second type check of [Meta.Validate] is there to refuse. *)
Inductive ResourceType :=
| TypeUnknown
| TypeFile
| TypeUnrecognized (tag : nat).

Definition ResourceType_eqb (a b : ResourceType) : bool :=
  match a, b with
  | TypeUnknown, TypeUnknown => true
  | TypeFile, TypeFile => true
  | TypeUnrecognized m, TypeUnrecognized n => Nat.eqb m n
  | _, _ => false
  end.

(** The errors of the type's own functions. *)
Inductive type_error :=
| UnsupportedType (value : string)
| UnknownType.

(** Modelled from the spec: [ParseType], "parsed into [ResourceType],
    defaulting to [unknown] on absence or parse failure"; [file] is the one
    name of the permitted set. *)
Definition ParseType (value : string) : ResourceType * option type_error :=
  if String.eqb value "file" then (TypeFile, None)
  else (TypeUnknown, Some (UnsupportedType value)).

(** Modelled from the spec: [Type.Validate], the type is "a recognized
    member" of the permitted set. *)
Definition Type_Validate (rt : ResourceType) : option type_error :=
  match rt with
  | TypeFile => None
  | _ => Some UnknownType
  end.

Record Meta := {
  Name : string;
  Type_ : ResourceType;
  Path : string;
  Comment : string
}.

(** Every error of [Meta.Validate] is an [errors.NewNotValid(nil, msg)];
    one constructor per message. *)
Inductive error :=
| MissingName                                     (* "resource missing name" *)
| MissingType                                     (* "resource missing type" *)
| InvalidType (rt : ResourceType) (err : type_error)
                                                  (* "invalid resource type %v: %v" *)
| MissingFilename                                 (* "resource missing filename" *)
| FilenameHasSlash (path : string).               (* filename cannot contain "/" (got %q) *)

(** [strings.Contains(s, substr)] *)
Fixpoint Contains (s substr : string) : bool :=
  String.prefix substr s
  || match s with
     | EmptyString => false
     | String _ rest => Contains rest substr
     end.

(** [func ParseMeta(name string, data interface{}) Meta].  [None] is the
    run-time panic of an unchecked type assertion: [data] that is neither
    nil nor a [map[string]interface{}], or a field that is not a string. *)
Definition ParseMeta (name : string) (data : iface) : option Meta :=
  let meta := {| Name := name; Type_ := TypeUnknown; Path := ""; Comment := "" |} in
  match data with
  | VNil => Some meta
  | VMapS rMap =>
      match
        match fst (map_index rMap "type") with
        | VNil => Some meta
        | VStr val =>
            Some {| Name := Name meta; Type_ := fst (ParseType val);
                    Path := Path meta; Comment := Comment meta |}
        | _ => None
        end
      with
      | None => None
      | Some meta =>
          match
            match fst (map_index rMap "filename") with
            | VNil => Some meta
            | VStr val =>
                Some {| Name := Name meta; Type_ := Type_ meta;
                        Path := val; Comment := Comment meta |}
            | _ => None
            end
          with
          | None => None
          | Some meta =>
              match fst (map_index rMap "comment") with
              | VNil => Some meta
              | VStr val =>
                  Some {| Name := Name meta; Type_ := Type_ meta;
                          Path := Path meta; Comment := val |}
              | _ => None
              end
          end
      end
  | _ => None
  end.

(** [func (meta Meta) Validate() error]; [None] is the nil error. *)
Definition Validate (meta : Meta) : option error :=
  if String.eqb (Name meta) "" then Some MissingName
  else if ResourceType_eqb (Type_ meta) TypeUnknown then Some MissingType
  else
    match Type_Validate (Type_ meta) with
    | Some err => Some (InvalidType (Type_ meta) err)
    | None =>
        if String.eqb (Path meta) "" then Some MissingFilename
        else if ResourceType_eqb (Type_ meta) TypeFile then
          if Contains (Path meta) "/" then Some (FilenameHasSlash (Path meta))
          else None
        else None
    end.

End Resource.

(* ===================================================================== *)
(** * Part II: the vocabulary of the specification                        *)
(* ===================================================================== *)

Module Vocabulary.
Import Go Regexp Charm.

Definition scalar_eqb (a b : scalar) : bool :=
  match a, b with
  | SNil, SNil => true
  | SBool x, SBool y => Bool.eqb x y
  | SInt x, SInt y => Z.eqb x y
  | SFloat x, SFloat y => Z.eqb x y
  | SStr x, SStr y => String.eqb x y
  | _, _ => false
  end.

Definition is_string (c : scalar) : bool :=
  match c with
  | SStr _ => true
  | _ => false
  end.

Fixpoint distinct {A} (eqb : A -> A -> bool) (l : list A) : bool :=
  match l with
  | [] => true
  | x :: rest => negb (existsb (eqb x) rest) && distinct eqb rest
  end.

(** The keys of every map of the tree are pairwise distinct, as they are in
    any Go map. *)
Fixpoint well_formed (v : iface) : bool :=
  match v with
  | VScalar _ => true
  | VSlice l => forallb well_formed l
  | VMapS m =>
      distinct String.eqb (map fst m) && forallb (fun kv => well_formed (snd kv)) m
  | VMapI m =>
      distinct scalar_eqb (map fst m) && forallb (fun kv => well_formed (snd kv)) m
  end.

(** [k] is a key of some mapping of the tree, at any depth. *)
Fixpoint has_key (k : string) (v : iface) : bool :=
  match v with
  | VScalar _ => false
  | VSlice l => existsb (has_key k) l
  | VMapS m => existsb (fun kv => String.eqb k (fst kv) || has_key k (snd kv)) m
  | VMapI m => existsb (fun kv => scalar_eqb (SStr k) (fst kv) || has_key k (snd kv)) m
  end.

(** The tree contains a key of [prohibitedSchemaKeys], that is [$ref] or
    [$schema], as a mapping key at any depth. *)
Fixpoint has_reserved_key (v : iface) : bool :=
  match v with
  | VScalar _ => false
  | VSlice l => existsb has_reserved_key l
  | VMapS m =>
      existsb (fun kv => prohibitedSchemaKeys (fst kv) || has_reserved_key (snd kv)) m
  | VMapI m =>
      existsb (fun kv =>
                 match fst kv with
                 | SStr k => prohibitedSchemaKeys k
                 | _ => false
                 end || has_reserved_key (snd kv)) m
  end.

(** Every mapping of the tree is a [map[string]interface{}]. *)
Fixpoint string_keyed (v : iface) : bool :=
  match v with
  | VScalar _ => true
  | VSlice l => forallb string_keyed l
  | VMapS m => forallb (fun kv => string_keyed (snd kv)) m
  | VMapI _ => false
  end.

(** Every key of every mapping of the tree is a string (the mapping itself
    may be interface-keyed). *)
Fixpoint keys_are_strings (v : iface) : bool :=
  match v with
  | VScalar _ => true
  | VSlice l => forallb keys_are_strings l
  | VMapS m => forallb (fun kv => keys_are_strings (snd kv)) m
  | VMapI m => forallb (fun kv => is_string (fst kv) && keys_are_strings (snd kv)) m
  end.

(** No reserved key sits inside an element of a sequence. *)
Fixpoint sequences_unreserved (v : iface) : bool :=
  match v with
  | VScalar _ => true
  | VSlice l => forallb (fun x => negb (has_reserved_key x) && sequences_unreserved x) l
  | VMapS m => forallb (fun kv => sequences_unreserved (snd kv)) m
  | VMapI m => forallb (fun kv => sequences_unreserved (snd kv)) m
  end.

(** The entries of an interface-keyed map whose key is a string. *)
Fixpoint entries (m : imap) : smap :=
  match m with
  | [] => []
  | (SStr k, x) :: rest => (k, x) :: entries rest
  | _ :: rest => entries rest
  end.

(** The same tree with every interface-keyed map turned into a string-keyed
    one. *)
Fixpoint stringify (v : iface) : iface :=
  match v with
  | VScalar _ => v
  | VSlice l => VSlice (map stringify l)
  | VMapS m => VMapS (map (fun kv => (fst kv, stringify (snd kv))) m)
  | VMapI m =>
      VMapS (fold_right
               (fun kv acc =>
                  match fst kv with
                  | SStr k => (k, stringify (snd kv)) :: acc
                  | _ => acc
                  end) [] m)
  end.

(** The two outcomes of [cleanse] on a tree all of whose keys are strings:
    the canonical tree when no key is reserved, the reserved-key error
    naming a reserved key of the tree otherwise. *)
Definition canonical_or_reserved (v : iface) : Prop :=
  (has_reserved_key v = false /\ cleanse v = Ok (stringify v))
  \/ (exists key,
        prohibitedSchemaKeys key = true /\ has_key key v = true /\
        cleanse v = Err (ErrProhibitedKey key)).

(** The side conditions under which [canonical_or_reserved] holds. *)
Definition plain (v : iface) : Prop :=
  well_formed v = true /\ keys_are_strings v = true /\
  sequences_unreserved v = true.

(** The action-name grammar in the words of the specification: a run of
    lowercase letters and hyphens, at least one character long, that begins
    and ends with a lowercase letter. *)
Fixpoint all_chars (p : ascii -> bool) (s : string) : bool :=
  match s with
  | EmptyString => true
  | String c rest => p c && all_chars p rest
  end.

Definition first_char (s : string) : option ascii :=
  match s with
  | EmptyString => None
  | String c _ => Some c
  end.

Fixpoint last_char (s : string) : option ascii :=
  match s with
  | EmptyString => None
  | String c EmptyString => Some c
  | String _ rest => last_char rest
  end.

Definition is_some_lower (c : option ascii) : bool :=
  match c with
  | Some c => lower c
  | None => false
  end.

Definition valid_action_name (name : string) : bool :=
  all_chars lower_or_hyphen name
  && is_some_lower (first_char name)
  && is_some_lower (last_char name).

(** The two errors [cleanse] can fail with. *)
Definition cleanse_error (e : error) : Prop :=
  e = ErrNonStringKey
  \/ exists key, prohibitedSchemaKeys key = true /\ e = ErrProhibitedKey key.

(** The per-key rules of the schema builder in the words of the
    specification: what an entry of an action's spec is refused with, and
    what it does to the recorded description and to the scaffold. *)
Definition is_str (v : iface) : bool :=
  match v with
  | VStr _ => true
  | _ => false
  end.

Definition is_slice (v : iface) : bool :=
  match v with
  | VSlice _ => true
  | _ => false
  end.

Definition is_smap (v : iface) : bool :=
  match v with
  | VMapS _ => true
  | _ => false
  end.

Definition entry_error (key : string) (value : iface) : option error :=
  if String.eqb key "description" || String.eqb key "title" then
    if is_str value then None else Some (ErrMustBeString key)
  else if String.eqb key "required" then
    if is_slice value then None else Some (ErrMustBeList key)
  else
    match cleanse value with
    | Err err => Some err
    | Ok canonical =>
        if String.eqb key "params" && negb (is_smap canonical)
        then Some ErrParamsNotMap else None
    end.

Definition entry_desc (key : string) (value : iface) (desc : string) : string :=
  if String.eqb key "description" then
    match value with
    | VStr typed => typed
    | _ => desc
    end
  else desc.

Definition entry_schema (key : string) (value : iface) (schema : smap) : smap :=
  if String.eqb key "description" || String.eqb key "title"
     || String.eqb key "required"
  then map_set key value schema
  else
    match cleanse value with
    | Err _ => schema
    | Ok canonical =>
        map_set (if String.eqb key "params" then "properties" else key)
                canonical schema
    end.

(** Collaborators for the examples: a reader that yields the empty string,
    a decoder that answers with the given document, and a schema library
    that compiles every document and finds every instance valid. *)
Definition stub_external (doc : list (string * smap)) : External := {|
  Reader := unit;
  ReadAll := fun _ => Done "";
  Unmarshal := fun _ => Done doc;
  JsonSchemaDocument := unit;
  NewJsonSchemaDocument := fun _ => Done tt;
  Validate := fun _ _ => {| Valid := true; Errors := [] |}
|}.

(** The key of the scaffold an entry of an action's spec writes to. *)
Definition entry_target (key : string) : string :=
  if String.eqb key "params" then "properties" else key.

(** The action document of the specification,
    [{snapshot: {description: "take snapshot", params: {outfile: {type:
    "string"}}}}]: its [params] as the YAML decoder yields them (nested
    maps are interface-keyed) and with string-keyed maps, and the schema
    expected for it. *)
Definition snapshot_params_decoded : iface :=
  VMapI [(SStr "outfile", VMapI [(SStr "type", VStr "string")])].

Definition snapshot_params_plain : iface :=
  VMapS [("outfile", VMapS [("type", VStr "string")])].

Definition snapshot_schema : smap :=
  [ ("description", VStr "take snapshot");
    ("type", VStr "object");
    ("title", VStr "snapshot");
    ("properties", VMapS [("outfile", VMapS [("type", VStr "string")])]) ].

(** A schema library for the examples: compiling answers [compiled]
    whatever the document, validating answers [results] whatever the
    instance. *)
Definition fixed_external (compiled : outcome unit) (results : ValidationResult)
  : External := {|
  Reader := unit;
  ReadAll := fun _ => Done "";
  Unmarshal := fun _ => Done [];
  JsonSchemaDocument := unit;
  NewJsonSchemaDocument := fun _ => compiled;
  Validate := fun _ _ => results
|}.

(** A field that [ParseMeta] can read: absent, nil, or a string. *)
Definition readable (rMap : smap) (key : string) : Prop :=
  map_get key rMap = None \/ map_get key rMap = Some VNil
  \/ exists val, map_get key rMap = Some (VStr val).

(** A canonical tree: a Go value all of whose maps are string-keyed and
    none of whose keys is reserved. *)
Definition canonical (v : iface) : bool :=
  well_formed v && string_keyed v && negb (has_reserved_key v).

(** The trees [cleanse] accepts: Go values all of whose mapping keys are
    strings, none of them reserved. *)
Definition acceptable (v : iface) : bool :=
  well_formed v && keys_are_strings v && negb (has_reserved_key v).

(** Where [recurseMapOnKeys] goes on from a value found on the way, with the
    keys [rest] still to follow. *)
Definition descend (found : iface * bool) (rest : list string) : option (iface * bool) :=
  match found with
  | (VMapS typed, true) => recurseMapOnKeys rest typed
  | (VMapI typed, true) =>
      match recurse_keys typed [] with
      | Some m => recurseMapOnKeys rest m
      | None => Some (VNil, false)
      end
  | _ => Some (VNil, false)
  end.

(** The shape of an entry of a built schema: a sequence under [required],
    a canonical tree under any other key. *)
Definition entry_shape (k : string) (v : iface) : Prop :=
  (k = "required" /\ is_slice v = true) \/ (k <> "required" /\ canonical v = true).

(** The value an entry of an action's spec leaves in the schema: the value
    itself for [description], [title] and [required], the cleansed value
    otherwise. *)
Definition entry_value (key : string) (value : iface) : iface :=
  if String.eqb key "description" || String.eqb key "title"
     || String.eqb key "required"
  then value
  else
    match cleanse value with
    | Ok canonical => canonical
    | Err _ => value
    end.

(** Two schemas with the same content. *)
Definition same_content (s1 s2 : smap) : Prop :=
  forall k, map_get k s1 = map_get k s2.

(** What it takes for one action of a document to be built: a name of the
    grammar, entries that all pass, and a schema that the library
    compiles. *)
Definition builds (X : External) (action : string * smap) : Prop :=
  MatchString actionNameRule (fst action) = true
  /\ exists desc schema d,
      range_actionSpec (snd action) "No description" (scaffold (fst action))
      = Ok (desc, schema)
      /\ NewJsonSchemaDocument X (VMapS schema) = Done d.

(** What [ParseMeta] sees of a field of the map: a nil value counts as an
    absent key. *)
Definition present (rMap : smap) (key : string) : option iface :=
  match map_get key rMap with
  | Some VNil => None
  | other => other
  end.

(** The entry [(key, value)] of the action [name] is reached: every action
    visited before [name] builds, [name] is in the grammar, and every entry
    of [name] visited before this one passes. *)
Definition visited_first (X : External) (doc : list (string * smap))
           (name key : string) (value : iface) : Prop :=
  exists healthy pre post rest,
    doc = (healthy ++ (name, (pre ++ (key, value) :: post)%list) :: rest)%list
    /\ (forall action, In action healthy -> builds X action)
    /\ MatchString actionNameRule name = true
    /\ (forall k v, In (k, v) pre -> entry_error k v = None).

End Vocabulary.

(* ===================================================================== *)
(** * Part III: properties                                                *)
(* ===================================================================== *)

(** ** Association lists as Go maps *)

Module MapFacts.
Import Go Vocabulary.

Lemma distinct_strings (l : list string) :
  distinct String.eqb l = true -> NoDup l.
Proof.
  induction l as [|x l IH]; simpl; intros H; constructor.
  - apply andb_prop in H as [H _]. intros Hin.
    apply negb_true_iff in H. apply not_true_iff_false in H. apply H.
    apply existsb_exists. exists x. split; [assumption | apply String.eqb_refl].
  - apply andb_prop in H as [_ H]. auto.
Qed.

Lemma scalar_eqb_eq (a b : scalar) : scalar_eqb a b = true <-> a = b.
Proof.
  destruct a, b; simpl; split; intros H; try discriminate; try reflexivity.
  - apply Bool.eqb_prop in H. congruence.
  - inversion H. apply Bool.eqb_reflx.
  - apply Z.eqb_eq in H. congruence.
  - inversion H. apply Z.eqb_refl.
  - apply Z.eqb_eq in H. congruence.
  - inversion H. apply Z.eqb_refl.
  - apply String.eqb_eq in H. congruence.
  - inversion H. apply String.eqb_refl.
Qed.

Lemma distinct_scalars (l : list scalar) :
  distinct scalar_eqb l = true -> NoDup l.
Proof.
  induction l as [|x l IH]; simpl; intros H; constructor.
  - apply andb_prop in H as [H _]. intros Hin.
    apply negb_true_iff in H. apply not_true_iff_false in H. apply H.
    apply existsb_exists. exists x. split; [assumption | now apply scalar_eqb_eq].
  - apply andb_prop in H as [_ H]. auto.
Qed.

Section Maps.
Context {V : Type}.
Implicit Types (m : list (string * V)) (k : string) (v : V).

Lemma map_set_fresh k v m :
  ~ In k (map fst m) -> map_set k v m = (m ++ [(k, v)])%list.
Proof.
  induction m as [|[k' v'] m IH]; simpl; intros Hk; [reflexivity|].
  destruct (String.eqb k k') eqn:E.
  - apply String.eqb_eq in E. subst. tauto.
  - rewrite IH; tauto.
Qed.

Lemma map_get_set_same k v m : map_get k (map_set k v m) = Some v.
Proof.
  induction m as [|[k' v'] m IH]; simpl.
  - now rewrite String.eqb_refl.
  - destruct (String.eqb k k') eqn:E; simpl.
    + now rewrite String.eqb_refl.
    + now rewrite E.
Qed.

Lemma map_get_set_other k k' v m :
  k <> k' -> map_get k (map_set k' v m) = map_get k m.
Proof.
  intros Hne. induction m as [|[k0 v0] m IH]; simpl.
  - apply String.eqb_neq in Hne. now rewrite Hne.
  - destruct (String.eqb k' k0) eqn:E; simpl.
    + apply String.eqb_eq in E. subst k0.
      apply String.eqb_neq in Hne. now rewrite Hne.
    + destruct (String.eqb k k0); auto.
Qed.

Lemma map_get_In k v m : map_get k m = Some v -> In (k, v) m.
Proof.
  induction m as [|[k' v'] m IH]; simpl; [discriminate|].
  destruct (String.eqb k k') eqn:E.
  - apply String.eqb_eq in E. intros [= ->]. subst. now left.
  - intros H. right. auto.
Qed.

Lemma map_get_None k m : map_get k m = None <-> ~ In k (map fst m).
Proof.
  induction m as [|[k' v'] m IH]; simpl; [tauto|].
  destruct (String.eqb k k') eqn:E.
  - apply String.eqb_eq in E. subst. split; [discriminate | tauto].
  - apply String.eqb_neq in E. rewrite IH. split; [intros H [?|?]; congruence | tauto].
Qed.
End Maps.

(** An induction principle that reaches the values nested in slices and
    maps. *)
Lemma iface_nested_ind (P : iface -> Prop) :
  (forall c, P (VScalar c)) ->
  (forall l, Forall P l -> P (VSlice l)) ->
  (forall m, Forall (fun kv => P (snd kv)) m -> P (VMapS m)) ->
  (forall m, Forall (fun kv => P (snd kv)) m -> P (VMapI m)) ->
  forall v, P v.
Proof.
  intros Hc Hl Hs Hi.
  fix IH 1. intros [c|l|m|m].
  - apply Hc.
  - apply Hl. induction l as [|x l IHl]; constructor; [apply IH | exact IHl].
  - apply Hs. induction m as [|[k x] m IHm]; constructor; [apply IH | exact IHm].
  - apply Hi. induction m as [|[k x] m IHm]; constructor; [apply IH | exact IHm].
Qed.

End MapFacts.

(** ** The canonicalizer [cleanse] *)

Module CleanseFacts.
Import Go Regexp Charm Vocabulary MapFacts.

(** *** The defining equations, one per case of the type switch *)

Lemma cleanse_scalar c : cleanse (VScalar c) = Ok (VScalar c).
Proof. now simp cleanse. Qed.

Lemma cleanse_VSlice l :
  cleanse (VSlice l) = cleanse_slice l (fun v _ => cleanse v) [].
Proof. now simp cleanse. Qed.

Lemma cleanse_VMapS m :
  cleanse (VMapS m) = cleanse_map m (fun _ v _ => cleanse v) [].
Proof. now simp cleanse. Qed.

Lemma cleanse_VMapI m :
  cleanse (VMapI m) =
  match cleanse_keys m [] with
  | Err err => Err err
  | Ok newMap => cleanse (VMapS newMap)
  end.
Proof.
  rewrite cleanse_equation_4.
  destruct (inspect (cleanse_keys m [])) as [[newMap|err] H];
    simpl; rewrite H; reflexivity.
Qed.

(** *** The three loops *)

Lemma cleanse_slice_ok (f : iface -> result iface) (g : iface -> iface) l :
  forall acc,
    (forall x, In x l -> f x = Ok (g x)) ->
    cleanse_slice l (fun v _ => f v) acc = Ok (VSlice (acc ++ map g l)%list).
Proof.
  induction l as [|x l IH]; simpl; intros acc H.
  - now rewrite app_nil_r.
  - rewrite (H x (or_introl eq_refl)).
    rewrite IH by auto. now rewrite <- app_assoc.
Qed.

Lemma cleanse_slice_err (f : iface -> result iface) l :
  forall acc,
    (exists x, In x l /\ exists e, f x = Err e) ->
    cleanse_slice l (fun v _ => f v) acc = Err ErrNonStringKey.
Proof.
  induction l as [|y l IH]; simpl; intros acc (x & Hin & e & He); [contradiction|].
  destruct (f y) as [ny|ey] eqn:Ey; [|reflexivity].
  apply IH. destruct Hin as [->|Hin]; [congruence|].
  exists x. eauto.
Qed.

Lemma cleanse_map_ok (f : iface -> result iface) (g : iface -> iface) m :
  forall acc,
    (forall k x, In (k, x) m -> prohibitedSchemaKeys k = false /\ f x = Ok (g x)) ->
    NoDup (map fst acc ++ map fst m)%list ->
    cleanse_map m (fun _ v _ => f v) acc
    = Ok (VMapS (acc ++ map (fun kv => (fst kv, g (snd kv))) m)%list).
Proof.
  induction m as [|[k x] m IH]; simpl; intros acc H Hnd.
  - now rewrite app_nil_r.
  - destruct (H k x (or_introl eq_refl)) as [-> ->].
    assert (Hk : ~ In k (map fst acc)).
    { apply NoDup_remove_2 in Hnd. intros Hin. apply Hnd.
      apply in_or_app. now left. }
    rewrite (map_set_fresh _ _ _ Hk).
    rewrite IH.
    + now rewrite <- app_assoc.
    + intros; apply H; now right.
    + rewrite map_app. simpl. rewrite <- app_assoc. exact Hnd.
Qed.

Lemma cleanse_map_err (f : iface -> result iface) m :
  forall acc,
    (exists k x, In (k, x) m /\
                 (prohibitedSchemaKeys k = true \/ exists e, f x = Err e)) ->
    exists e, cleanse_map m (fun _ v _ => f v) acc = Err e.
Proof.
  induction m as [|[k' x'] m IH]; simpl; intros acc (k & x & Hin & H); [contradiction|].
  destruct (prohibitedSchemaKeys k') eqn:Ek; [eauto|].
  destruct (f x') as [ny|ey] eqn:Ey; [|eauto].
  apply IH. destruct Hin as [Heq|Hin].
  - inversion Heq; subst. destruct H as [H|[e H]]; congruence.
  - exists k, x. auto.
Qed.

Lemma cleanse_keys_strings m :
  forall acc,
    forallb (fun kv => is_string (fst kv)) m = true ->
    NoDup (map fst acc ++ map fst (entries m))%list ->
    cleanse_keys m acc = Ok (acc ++ entries m)%list.
Proof.
  induction m as [|[k x] m IH]; simpl; intros acc Hs Hnd.
  - now rewrite app_nil_r.
  - apply andb_prop in Hs as [Hk Hs]. destruct k; try discriminate. simpl in *.
    assert (Hfresh : ~ In s (map fst acc)).
    { apply NoDup_remove_2 in Hnd. intros Hin. apply Hnd.
      apply in_or_app. now left. }
    rewrite (map_set_fresh _ _ _ Hfresh).
    rewrite IH; auto.
    + now rewrite <- app_assoc.
    + rewrite map_app. simpl. rewrite <- app_assoc. exact Hnd.
Qed.

Lemma cleanse_keys_non_string m :
  forall acc,
    forallb (fun kv => is_string (fst kv)) m = false ->
    cleanse_keys m acc = Err ErrNonStringKey.
Proof.
  induction m as [|[k x] m IH]; simpl; intros acc Hs; [discriminate|].
  destruct k; simpl in *; auto.
Qed.

Lemma entries_keys_In k m :
  In k (map fst (entries m)) -> In (SStr k) (map fst m).
Proof.
  induction m as [|[c x] m IH]; simpl; [tauto|].
  destruct c; simpl; intros H; auto.
  destruct H as [->|H]; auto.
Qed.

Lemma entries_keys_NoDup m :
  NoDup (map fst m) -> NoDup (map fst (entries m)).
Proof.
  induction m as [|[c x] m IH]; simpl; intros H; [constructor|].
  inversion H as [|? ? Hnotin Hnd]; subst.
  destruct c; simpl; auto.
  constructor; auto. intros Hin. apply Hnotin. now apply entries_keys_In.
Qed.

Lemma entries_In k x m : In (k, x) (entries m) -> In (SStr k, x) m.
Proof.
  induction m as [|[c y] m IH]; simpl; [tauto|].
  destruct c; simpl; intros H; auto.
  destruct H as [Heq|H]; auto. inversion Heq; subst. now left.
Qed.

(** With unique keys, the first loop of the interface-keyed case either
    meets a key that is not a string or rebuilds the entries unchanged. *)
Lemma cleanse_keys_result m :
  distinct scalar_eqb (map fst m) = true ->
  cleanse_keys m [] =
  if forallb (fun kv => is_string (fst kv)) m then Ok (entries m)
  else Err ErrNonStringKey.
Proof.
  intros Hd. destruct (forallb _ m) eqn:Hs.
  - rewrite cleanse_keys_strings; auto. simpl.
    apply entries_keys_NoDup. now apply distinct_scalars.
  - now apply cleanse_keys_non_string.
Qed.

(** *** Trees whose keys are all strings *)

Lemma existsb_false {A} (f : A -> bool) l :
  existsb f l = false -> forall x, In x l -> f x = false.
Proof.
  intros H x Hin. destruct (f x) eqn:E; [|reflexivity].
  rewrite <- H. symmetry. apply existsb_exists. eauto.
Qed.

Lemma has_key_reserved key v :
  prohibitedSchemaKeys key = true -> has_key key v = true ->
  has_reserved_key v = true.
Proof.
  intros Hp. induction v as [c|l IH|m IH|m IH] using iface_nested_ind; simpl.
  - discriminate.
  - rewrite Forall_forall in IH. intros H.
    apply existsb_exists in H as (x & Hin & Hx).
    apply existsb_exists. exists x. auto.
  - rewrite Forall_forall in IH. intros H.
    apply existsb_exists in H as ([k x] & Hin & Hx). simpl in Hx.
    apply existsb_exists. exists (k, x). split; [assumption|]. simpl.
    apply orb_true_iff in Hx as [Hx|Hx].
    + apply String.eqb_eq in Hx. subst. now rewrite Hp.
    + pose proof (IH _ Hin Hx) as Hr. simpl in Hr. rewrite Hr. apply orb_true_r.
  - rewrite Forall_forall in IH. intros H.
    apply existsb_exists in H as ([k x] & Hin & Hx). simpl in Hx.
    apply existsb_exists. exists (k, x). split; [assumption|]. simpl.
    apply orb_true_iff in Hx as [Hx|Hx].
    + destruct k; try discriminate. apply String.eqb_eq in Hx. subst.
      now rewrite Hp.
    + pose proof (IH _ Hin Hx) as Hr. simpl in Hr. rewrite Hr. apply orb_true_r.
Qed.

Lemma existsb_orb {A} (f g : A -> bool) l :
  existsb (fun x => f x || g x) l = existsb f l || existsb g l.
Proof.
  induction l as [|x l IH]; simpl; [reflexivity|]. rewrite IH.
  destruct (f x), (g x), (existsb f l); reflexivity.
Qed.

Lemma existsb_pointwise {A} (f g : A -> bool) l :
  (forall x, In x l -> f x = g x) -> existsb f l = existsb g l.
Proof.
  induction l as [|x l IH]; simpl; intros H; [reflexivity|].
  rewrite (H x (or_introl eq_refl)), IH; auto.
Qed.

(** [has_reserved_key] in terms of the two keys of the table. *)
Lemma has_reserved_key_keys v :
  has_reserved_key v = has_key "$ref" v || has_key "$schema" v.
Proof.
  induction v as [c|l IH|m IH|m IH] using iface_nested_ind; cbn [has_reserved_key has_key].
  - reflexivity.
  - rewrite Forall_forall in IH. rewrite <- existsb_orb.
    now apply existsb_pointwise.
  - rewrite Forall_forall in IH. rewrite <- existsb_orb.
    apply existsb_pointwise. intros [k x] Hin. cbn [fst snd].
    pose proof (IH _ Hin) as Hx. cbn [snd] in Hx. rewrite Hx.
    unfold prohibitedSchemaKeys.
    rewrite (String.eqb_sym k "$ref"), (String.eqb_sym k "$schema").
    destruct (String.eqb "$ref" k), (String.eqb "$schema" k),
      (has_key "$ref" x), (has_key "$schema" x); reflexivity.
  - rewrite Forall_forall in IH. rewrite <- existsb_orb.
    apply existsb_pointwise. intros [c x] Hin. cbn [fst snd].
    pose proof (IH _ Hin) as Hx. cbn [snd] in Hx. rewrite Hx.
    destruct c as [| | | |k]; cbn [scalar_eqb orb]; [reflexivity..|].
    unfold prohibitedSchemaKeys.
    rewrite (String.eqb_sym k "$ref"), (String.eqb_sym k "$schema").
    destruct (String.eqb "$ref" k), (String.eqb "$schema" k),
      (has_key "$ref" x), (has_key "$schema" x); reflexivity.
Qed.

Lemma canonical_not_reserved v :
  canonical_or_reserved v -> has_reserved_key v = false ->
  cleanse v = Ok (stringify v).
Proof.
  intros [[_ H]|(key & Hp & Hk & _)] Hr; [assumption|].
  rewrite (has_key_reserved key v Hp Hk) in Hr. discriminate.
Qed.

Lemma cleanse_map_reserved (f : iface -> result iface) (g : iface -> iface) m :
  forall acc,
    (forall k x, In (k, x) m ->
       (has_reserved_key x = false /\ f x = Ok (g x))
       \/ (exists key, prohibitedSchemaKeys key = true /\ has_key key x = true /\
                       f x = Err (ErrProhibitedKey key))) ->
    has_reserved_key (VMapS m) = true ->
    exists key,
      prohibitedSchemaKeys key = true /\ has_key key (VMapS m) = true /\
      cleanse_map m (fun _ v _ => f v) acc = Err (ErrProhibitedKey key).
Proof.
  induction m as [|[k x] m IH]; intros acc H Hr; [discriminate|].
  cbn [cleanse_map]. cbn [has_key existsb fst snd].
  cbn [has_reserved_key existsb fst snd] in Hr.
  destruct (prohibitedSchemaKeys k) eqn:Ek.
  - exists k. rewrite String.eqb_refl. auto.
  - destruct (H k x (or_introl eq_refl)) as [[Hx Hf]|(key & Hp & Hk & Hf)]; rewrite Hf.
    + rewrite Hx in Hr. cbn [orb] in Hr.
      destruct (IH (map_set k (g x) acc)) as (key & Hp & Hk & Hc).
      * intros k0 x0 Hin. apply (H k0 x0). now right.
      * exact Hr.
      * exists key. repeat split; auto.
        cbn [has_key] in Hk. rewrite Hk. apply orb_true_r.
    + exists key. repeat split; auto. rewrite Hk.
      rewrite orb_true_r. reflexivity.
Qed.

Lemma outcome_VMapS m :
  Forall (fun kv => plain (snd kv) -> canonical_or_reserved (snd kv)) m ->
  plain (VMapS m) -> canonical_or_reserved (VMapS m).
Proof.
  intros IH (Hwf & Hks & Hsu). rewrite Forall_forall in IH.
  cbn [well_formed] in Hwf. apply andb_prop in Hwf as [Hd Hwf].
  cbn [keys_are_strings] in Hks. cbn [sequences_unreserved] in Hsu.
  rewrite forallb_forall in Hwf, Hks, Hsu.
  assert (Hval : forall k x, In (k, x) m -> canonical_or_reserved x).
  { intros k x Hin. apply (IH _ Hin).
    split; [apply (Hwf _ Hin)|split; [apply (Hks _ Hin)|apply (Hsu _ Hin)]]. }
  destruct (has_reserved_key (VMapS m)) eqn:Hr.
  - right. rewrite cleanse_VMapS.
    apply cleanse_map_reserved with (g := stringify); [|exact Hr].
    intros k x Hin. destruct (Hval k x Hin) as [?|?]; auto.
  - left. split; [exact Hr|]. rewrite cleanse_VMapS.
    rewrite cleanse_map_ok with (g := stringify).
    + reflexivity.
    + intros k x Hin. cbn [has_reserved_key] in Hr.
      pose proof (existsb_false _ _ Hr _ Hin) as Hkx. cbn [fst snd] in Hkx.
      apply orb_false_iff in Hkx as [Hk Hx]. split; [assumption|].
      apply canonical_not_reserved; eauto.
    + simpl. now apply distinct_strings.
Qed.

Lemma entries_all_strings m :
  forallb (fun kv => is_string (fst kv)) m = true ->
  m = map (fun kv => (SStr (fst kv), snd kv)) (entries m).
Proof.
  induction m as [|[c x] m IH]; simpl; intros H; [reflexivity|].
  apply andb_prop in H as [Hc H]. destruct c; try discriminate.
  simpl. now rewrite <- IH.
Qed.

Lemma outcome_VMapI m :
  Forall (fun kv => plain (snd kv) -> canonical_or_reserved (snd kv)) m ->
  plain (VMapI m) -> canonical_or_reserved (VMapI m).
Proof.
  intros IH (Hwf & Hks & Hsu).
  cbn [well_formed] in Hwf. apply andb_prop in Hwf as [Hd Hwf].
  cbn [keys_are_strings] in Hks. cbn [sequences_unreserved] in Hsu.
  assert (Hstr : forallb (fun kv => is_string (fst kv)) m = true).
  { rewrite forallb_forall in *. intros kv Hin.
    specialize (Hks kv Hin). now apply andb_prop in Hks as [? _]. }
  assert (Hks' : forallb (fun kv => keys_are_strings (snd kv)) m = true).
  { rewrite forallb_forall in *. intros kv Hin.
    specialize (Hks kv Hin). now apply andb_prop in Hks as [_ ?]. }
  pose proof (entries_keys_NoDup m (distinct_scalars _ Hd)) as Hnd.
  pose proof (entries_all_strings m Hstr) as Hm.
  assert (Hent : canonical_or_reserved (VMapS (entries m))).
  { apply outcome_VMapS.
    - rewrite Forall_forall in *. intros [k x] Hin.
      apply (IH (SStr k, x)). now apply entries_In.
    - assert (Hsub : forall (P : iface -> bool),
                 forallb (fun kv => P (snd kv)) m = true ->
                 forallb (fun kv : string * iface => P (snd kv)) (entries m) = true).
      { intros P HP. rewrite forallb_forall in *. intros [k x] Hin.
        apply (HP (SStr k, x)). now apply entries_In. }
      repeat split; cbn [well_formed keys_are_strings sequences_unreserved]; auto.
      apply andb_true_intro. split; [|auto].
      clear -Hnd. induction (entries m) as [|[k x] l IHl]; simpl; [reflexivity|].
      inversion Hnd as [|? ? Hnotin Hnd']; subst.
      apply andb_true_intro. split; [|auto].
      apply negb_true_iff. apply not_true_iff_false. intros Hex.
      apply existsb_exists in Hex as (k' & Hin & Heq).
      apply String.eqb_eq in Heq. subst. contradiction. }
  unfold canonical_or_reserved. rewrite cleanse_VMapI.
  rewrite cleanse_keys_result, Hstr by assumption.
  assert (Hres : has_reserved_key (VMapI m) = has_reserved_key (VMapS (entries m))).
  { rewrite Hm at 1. cbn [has_reserved_key]. clear.
    induction (entries m) as [|[k x] l IHl]; [reflexivity|].
    cbn [map existsb fold_right]. rewrite IHl. reflexivity. }
  assert (Hkey : forall key, has_key key (VMapI m) = has_key key (VMapS (entries m))).
  { intros key. rewrite Hm at 1. cbn [has_key]. clear.
    induction (entries m) as [|[k x] l IHl]; [reflexivity|].
    cbn [map existsb fold_right]. rewrite IHl. reflexivity. }
  assert (Hfy : stringify (VMapI m) = stringify (VMapS (entries m))).
  { rewrite Hm at 1. cbn [stringify]. clear. f_equal.
    induction (entries m) as [|[k x] l IHl]; [reflexivity|].
    cbn [map existsb fold_right]. rewrite IHl. reflexivity. }
  rewrite Hres, Hfy. destruct Hent as [?|(key & ? & ? & ?)]; [now left|].
  right. exists key. rewrite Hkey. auto.
Qed.

Lemma outcome_VSlice l :
  Forall (fun x => plain x -> canonical_or_reserved x) l ->
  plain (VSlice l) -> canonical_or_reserved (VSlice l).
Proof.
  intros IH (Hwf & Hks & Hsu). rewrite Forall_forall in IH.
  cbn [well_formed] in Hwf. cbn [keys_are_strings] in Hks.
  cbn [sequences_unreserved] in Hsu.
  rewrite forallb_forall in Hwf, Hks, Hsu.
  left. split.
  - cbn [has_reserved_key]. apply not_true_iff_false. intros Hex.
    apply existsb_exists in Hex as (x & Hin & Hx).
    specialize (Hsu x Hin). apply andb_prop in Hsu as [Hn _].
    rewrite Hx in Hn. discriminate.
  - rewrite cleanse_VSlice. rewrite cleanse_slice_ok with (g := stringify).
    + reflexivity.
    + intros x Hin. specialize (Hsu x Hin). apply andb_prop in Hsu as [Hn Hsu].
      apply canonical_not_reserved; [|now apply negb_true_iff].
      apply (IH x Hin). repeat split; auto.
Qed.

(** On a tree whose keys are all strings and whose sequences hold no
    reserved key, [cleanse] has exactly the two outcomes above. *)
Lemma cleanse_outcome v : plain v -> canonical_or_reserved v.
Proof.
  induction v as [c|l IH|m IH|m IH] using iface_nested_ind.
  - intros _. left. split; [reflexivity | apply cleanse_scalar].
  - now apply outcome_VSlice.
  - now apply outcome_VMapS.
  - now apply outcome_VMapI.
Qed.

(** *** Trees with only string-keyed maps and no reserved key *)

Lemma string_keyed_keys_are_strings v :
  string_keyed v = true -> keys_are_strings v = true.
Proof.
  induction v as [c|l IH|m IH|m IH] using iface_nested_ind; simpl; auto.
  - rewrite Forall_forall in IH. rewrite !forallb_forall. auto.
  - rewrite Forall_forall in IH. rewrite !forallb_forall. auto.
  - discriminate.
Qed.

Lemma unreserved_sequences v :
  has_reserved_key v = false -> sequences_unreserved v = true.
Proof.
  induction v as [c|l IH|m IH|m IH] using iface_nested_ind; simpl; auto;
    rewrite Forall_forall in IH; intros H; apply forallb_forall; intros x Hin;
    pose proof (existsb_false _ _ H x Hin) as Hx; simpl in Hx.
  - rewrite Hx. simpl. auto.
  - apply orb_false_iff in Hx as [_ Hx]. auto.
  - apply orb_false_iff in Hx as [_ Hx]. auto.
Qed.

Lemma stringify_string_keyed v : string_keyed v = true -> stringify v = v.
Proof.
  induction v as [c|l IH|m IH|m IH] using iface_nested_ind; simpl; auto.
  - intros H. f_equal. rewrite forallb_forall in H.
    induction l as [|x l IHl]; simpl; [reflexivity|].
    inversion IH; subst. f_equal; [|apply IHl]; simpl in *; auto.
  - intros H. f_equal. rewrite forallb_forall in H.
    induction m as [|[k x] m IHm]; simpl; [reflexivity|].
    inversion IH as [|? ? Hx Hm]; subst. simpl in Hx. f_equal.
    + f_equal. apply Hx. apply (H (k, x)). now left.
    + apply IHm; [assumption|]. intros kv Hin. apply H. now right.
  - discriminate.
Qed.

(** C3. On a tree all of whose maps, at every depth, are string-keyed and
    free of the keys [$ref] and [$schema], [cleanse] succeeds and returns
    a tree equal to its input.  The hypothesis [well_formed] says that the
    tree is a Go value: the keys of each of its maps are pairwise
    distinct. *)
Theorem cleanse_identity_on_clean_trees (v : iface) :
  well_formed v = true ->
  string_keyed v = true ->
  has_key "$ref" v = false ->
  has_key "$schema" v = false ->
  cleanse v = Ok v.
Proof.
  intros Hwf Hsk Href Hschema.
  assert (Hr : has_reserved_key v = false).
  { now rewrite has_reserved_key_keys, Href, Hschema. }
  rewrite <- (stringify_string_keyed v Hsk) at 2.
  apply canonical_not_reserved; [|assumption].
  apply cleanse_outcome. repeat split.
  - assumption.
  - now apply string_keyed_keys_are_strings.
  - now apply unreserved_sequences.
Qed.

Lemma cleanse_identity_on_clean_trees_witness :
  cleanse (VMapS [ ("outfile", VMapS [("type", VStr "string")]);
                   ("tags", VSlice [VInt 1; VNil; VMapS [("a", VStr "b")]]) ])
  = Ok (VMapS [ ("outfile", VMapS [("type", VStr "string")]);
                ("tags", VSlice [VInt 1; VNil; VMapS [("a", VStr "b")]]) ]).
Proof.
  apply cleanse_identity_on_clean_trees; reflexivity.
Defined.

(** *** Trees that hold a reserved key *)

Lemma entries_In_conv k x m : In (SStr k, x) m -> In (k, x) (entries m).
Proof.
  induction m as [|[c y] m IH]; simpl; [tauto|].
  intros [Heq|Hin].
  - inversion Heq; subst. now left.
  - destruct c; simpl; auto.
Qed.

Lemma prohibited_keys key :
  prohibitedSchemaKeys key = true -> key = "$ref" \/ key = "$schema".
Proof.
  unfold prohibitedSchemaKeys. intros H.
  apply orb_true_iff in H as [H|H]; apply String.eqb_eq in H; auto.
Qed.

Lemma cleanse_rejects_reserved v :
  well_formed v = true -> has_reserved_key v = true ->
  exists err, cleanse v = Err err.
Proof.
  induction v as [c|l IH|m IH|m IH] using iface_nested_ind;
    cbn [well_formed has_reserved_key]; intros Hwf Hr.
  - discriminate.
  - rewrite Forall_forall in IH. rewrite forallb_forall in Hwf.
    apply existsb_exists in Hr as (x & Hin & Hx).
    exists ErrNonStringKey. rewrite cleanse_VSlice. apply cleanse_slice_err.
    exists x. auto.
  - rewrite Forall_forall in IH. apply andb_prop in Hwf as [_ Hwf].
    rewrite forallb_forall in Hwf.
    apply existsb_exists in Hr as ([k x] & Hin & Hx). cbn [fst snd] in Hx.
    rewrite cleanse_VMapS. apply cleanse_map_err. exists k, x. split; [assumption|].
    apply orb_true_iff in Hx as [Hx|Hx]; [now left|right].
    apply (IH _ Hin); [apply (Hwf _ Hin) | assumption].
  - rewrite Forall_forall in IH. apply andb_prop in Hwf as [Hd Hwf].
    rewrite forallb_forall in Hwf.
    rewrite cleanse_VMapI, cleanse_keys_result by assumption.
    destruct (forallb (fun kv => is_string (fst kv)) m) eqn:Hstr; [|eauto].
    apply existsb_exists in Hr as ([c x] & Hin & Hx). cbn [fst snd] in Hx.
    rewrite forallb_forall in Hstr. pose proof (Hstr _ Hin) as Hc.
    destruct c as [| | | |k]; try discriminate.
    rewrite cleanse_VMapS. apply cleanse_map_err. exists k, x.
    split; [now apply entries_In_conv|].
    apply orb_true_iff in Hx as [Hx|Hx]; [now left|right].
    apply (IH _ Hin); [apply (Hwf _ Hin) | assumption].
Qed.

(** C1, as the code has it.  A tree that holds [$ref] or [$schema] as a
    mapping key, at any depth, is always refused by [cleanse].  The error is
    the reserved-key error, naming a reserved key of the tree, when every
    mapping key of the tree is a string and no reserved key sits inside an
    element of a sequence.  ([well_formed]: the keys of each map are
    pairwise distinct, as in any Go map.) *)
Theorem cleanse_reserved_key (v : iface) :
  well_formed v = true ->
  has_key "$ref" v = true \/ has_key "$schema" v = true ->
  (exists err, cleanse v = Err err)
  /\ (keys_are_strings v = true -> sequences_unreserved v = true ->
      exists key,
        (key = "$ref" \/ key = "$schema") /\ has_key key v = true /\
        cleanse v = Err (ErrProhibitedKey key) /\
        error_text (ErrProhibitedKey key)
        = "schema key " ++ dquote ++ key ++ dquote
          ++ " not compatible with this version of juju").
Proof.
  intros Hwf Hkeys.
  assert (Hr : has_reserved_key v = true).
  { rewrite has_reserved_key_keys. apply orb_true_iff. exact Hkeys. }
  split; [now apply cleanse_rejects_reserved|].
  intros Hks Hsu.
  destruct (cleanse_outcome v (conj Hwf (conj Hks Hsu)))
    as [[Hn _]|(key & Hp & Hk & Hc)]; [congruence|].
  exists key. repeat split; auto using prohibited_keys.
Qed.

Lemma cleanse_reserved_key_witness :
  exists key,
    (key = "$ref" \/ key = "$schema") /\
    has_key key (VMapS [("a", VMapI [(SStr "b", VInt 1); (SStr "$schema", VStr "x")])])
    = true /\
    cleanse (VMapS [("a", VMapI [(SStr "b", VInt 1); (SStr "$schema", VStr "x")])])
    = Err (ErrProhibitedKey key).
Proof.
  destruct (cleanse_reserved_key
              (VMapS [("a", VMapI [(SStr "b", VInt 1); (SStr "$schema", VStr "x")])])
              eq_refl (or_intror eq_refl)) as [_ H].
  destruct (H eq_refl eq_refl) as (key & Hkey & Hin & Hc & _).
  exists key. auto.
Defined.

(** C1 as stated fails: in a map that holds both a key that is not a string
    and the key [$ref], the keys are coerced before any of them is looked
    up in [prohibitedSchemaKeys], and the error is the non-string-key one. *)
Lemma cleanse_reserved_key_preempted :
  has_key "$ref" (VMapI [(SInt 1, VStr "x"); (SStr "$ref", VStr "y")]) = true
  /\ well_formed (VMapI [(SInt 1, VStr "x"); (SStr "$ref", VStr "y")]) = true
  /\ cleanse (VMapI [(SInt 1, VStr "x"); (SStr "$ref", VStr "y")])
     = Err ErrNonStringKey
  /\ forall key,
       cleanse (VMapI [(SInt 1, VStr "x"); (SStr "$ref", VStr "y")])
       <> Err (ErrProhibitedKey key).
Proof.
  repeat split. intros key H. vm_compute in H. discriminate.
Qed.

(** A reserved key inside an element of a sequence: the slice loop answers
    with "map keyed with non-string value" whatever the element's error
    was, although no key of the tree is a non-string. *)
Example cleanse_slice_replaces_error :
  cleanse (VSlice [VMapS [("$ref", VStr "x")]]) = Err ErrNonStringKey
  /\ cleanse (VMapS [("$ref", VStr "x")]) = Err (ErrProhibitedKey "$ref").
Proof. split; reflexivity. Qed.

End CleanseFacts.

(** ** The nested-path accessor [recurseMapOnKeys] *)

Module LookupFacts.
Import Go Regexp Charm Vocabulary MapFacts.

Lemma recurse_keys_strings typed :
  forall m,
    forallb (fun kv => is_string (fst kv)) typed = true ->
    exists m', recurse_keys typed m = Some m'.
Proof.
  induction typed as [|[c x] typed IH]; simpl; intros m H; [eauto|].
  apply andb_prop in H as [Hc H]. destruct c; try discriminate. auto.
Qed.

Lemma recurse_keys_non_string typed :
  forall m,
    forallb (fun kv => is_string (fst kv)) typed = false ->
    recurse_keys typed m = None.
Proof.
  induction typed as [|[c x] typed IH]; simpl; intros m H; [discriminate|].
  destruct c; simpl in *; auto.
Qed.

Lemma recurse_keys_entries typed :
  forall m,
    forallb (fun kv => is_string (fst kv)) typed = true ->
    NoDup (map fst m ++ map fst (entries typed))%list ->
    recurse_keys typed m = Some (m ++ entries typed)%list.
Proof.
  induction typed as [|[c x] typed IH]; simpl; intros m Hs Hnd.
  - now rewrite app_nil_r.
  - apply andb_prop in Hs as [Hc Hs]. destruct c; try discriminate. simpl in *.
    assert (Hfresh : ~ In s (map fst m)).
    { apply NoDup_remove_2 in Hnd. intros Hin. apply Hnd.
      apply in_or_app. now left. }
    rewrite (map_set_fresh _ _ _ Hfresh), IH; auto.
    + now rewrite <- app_assoc.
    + rewrite map_app. simpl. rewrite <- app_assoc. exact Hnd.
Qed.

Lemma recurseMapOnKeys_returns rest :
  forall key params, exists r, recurseMapOnKeys (key :: rest) params = Some r.
Proof.
  induction rest as [|k' rest IH]; intros key params; cbn [recurseMapOnKeys].
  - destruct (map_index params key). eauto.
  - destruct (map_index params key) as [answer ok].
    destruct ok; cbn [negb]; [|eauto].
    destruct answer as [c|l|typed|typed]; eauto.
    destruct (recurse_keys typed []); eauto.
Qed.

(** C5. [recurseMapOnKeys] on a non-empty path [key :: rest] never panics.
    With [rest] empty it returns the map's value for [key] and the presence
    flag, whatever the value is.  With keys remaining it returns (nil,
    false) when [key] is absent, when the value is not a map, and when the
    value is an interface-keyed map with a key that is not a string; into a
    string-keyed map, or an interface-keyed one whose keys are all strings,
    it goes on with [rest].  The three lookups of the specification follow. *)
Theorem recurseMapOnKeys_lookup (key : string) (rest : list string) (params : smap) :
  (exists r, recurseMapOnKeys (key :: rest) params = Some r)
  /\ (rest = [] ->
      recurseMapOnKeys (key :: rest) params = Some (map_index params key))
  /\ (rest <> [] ->
      (map_get key params = None ->
       recurseMapOnKeys (key :: rest) params = Some (VNil, false))
      /\ (forall answer, map_get key params = Some answer ->
          match answer with
          | VMapS typed =>
              recurseMapOnKeys (key :: rest) params = recurseMapOnKeys rest typed
          | VMapI typed =>
              (forallb (fun kv => is_string (fst kv)) typed = false ->
               recurseMapOnKeys (key :: rest) params = Some (VNil, false))
              /\ (forallb (fun kv => is_string (fst kv)) typed = true ->
                  exists m,
                    recurse_keys typed [] = Some m
                    /\ (distinct scalar_eqb (map fst typed) = true -> m = entries typed)
                    /\ recurseMapOnKeys (key :: rest) params = recurseMapOnKeys rest m)
          | _ => recurseMapOnKeys (key :: rest) params = Some (VNil, false)
          end))
  /\ recurseMapOnKeys ["a"; "b"] [("a", VMapS [("b", VMapS [("c", VStr "d")])])]
     = Some (VMapS [("c", VStr "d")], true)
  /\ recurseMapOnKeys ["a"; "b"] [("a", VMapI [(SStr "b", VMapI [(SStr "c", VStr "d")])])]
     = Some (VMapI [(SStr "c", VStr "d")], true)
  /\ recurseMapOnKeys ["a"; "x"] [("a", VMapS [("b", VInt 1)])] = Some (VNil, false)
  /\ recurseMapOnKeys ["a"; "b"] [("a", VInt 5)] = Some (VNil, false).
Proof.
  split; [apply recurseMapOnKeys_returns|].
  split.
  { intros ->. cbn [recurseMapOnKeys]. now destruct (map_index params key). }
  split; [|repeat split].
  intros Hrest. destruct rest as [|k' rest]; [congruence|]. clear Hrest.
  cbn [recurseMapOnKeys]. unfold map_index. split.
  - intros ->. reflexivity.
  - intros answer ->. cbn [negb].
    destruct answer as [c|l|typed|typed]; try reflexivity.
    split.
    + intros H. now rewrite recurse_keys_non_string.
    + intros H. destruct (recurse_keys_strings typed [] H) as [m Hm].
      exists m. rewrite Hm. repeat split.
      intros Hd. rewrite recurse_keys_entries in Hm; auto.
      * simpl in Hm. congruence.
      * simpl. apply CleanseFacts.entries_keys_NoDup. now apply distinct_scalars.
Qed.

Lemma recurseMapOnKeys_lookup_witness :
  recurseMapOnKeys ["a"; "b"; "c"]
    [("a", VMapI [(SStr "b", VMapS [("c", VInt 7)]); (SInt 3, VNil)])]
  = Some (VNil, false).
Proof.
  destruct (recurseMapOnKeys_lookup "a" ["b"; "c"]
              [("a", VMapI [(SStr "b", VMapS [("c", VInt 7)]); (SInt 3, VNil)])])
    as (_ & _ & H & _).
  destruct (H ltac:(discriminate)) as [_ Hpresent].
  specialize (Hpresent _ eq_refl). cbv beta iota in Hpresent.
  destruct Hpresent as [Hbad _]. apply Hbad. reflexivity.
Defined.

End LookupFacts.

(** ** The action-name rule *)

Module RegexpFacts.
Import Go Regexp Charm Vocabulary.

Lemma matches_Void s : matches Void s = false.
Proof. induction s; simpl; auto. Qed.

Lemma matches_Eps s :
  matches Eps s = match s with EmptyString => true | String _ _ => false end.
Proof. destruct s; simpl; auto using matches_Void. Qed.

Lemma matches_Alt s : forall a b, matches (Alt a b) s = matches a s || matches b s.
Proof. induction s; simpl; intros; auto. Qed.

Lemma matches_Cat_Void s : forall r, matches (Cat Void r) s = false.
Proof. induction s; simpl; intros; auto. Qed.

Lemma matches_Cat_Eps r s : matches (Cat Eps r) s = matches r s.
Proof.
  destruct s as [|c s]; simpl; [reflexivity|].
  now rewrite matches_Alt, matches_Cat_Void.
Qed.

Lemma matches_Class p s :
  matches (Class p) s =
  match s with
  | String c EmptyString => p c
  | _ => false
  end.
Proof.
  destruct s as [|c [|d s]]; simpl; auto.
  - now destruct (p c).
  - destruct (p c); simpl; apply matches_Void.
Qed.

Lemma matches_Cat_Class p r s :
  matches (Cat (Class p) r) s =
  match s with
  | EmptyString => false
  | String c rest => p c && matches r rest
  end.
Proof.
  destruct s as [|c s]; simpl; [reflexivity|].
  destruct (p c); simpl; [apply matches_Cat_Eps | apply matches_Cat_Void].
Qed.

(** A concatenation matches exactly the strings that split into a match of
    each part. *)
Lemma matches_Cat s :
  forall a b,
    matches (Cat a b) s = true <->
    exists s1 s2, s = s1 ++ s2 /\ matches a s1 = true /\ matches b s2 = true.
Proof.
  induction s as [|c s IH]; intros a b; simpl.
  - rewrite andb_true_iff. split.
    + intros [Ha Hb]. exists "", "". auto.
    + intros (s1 & s2 & Heq & H1 & H2).
      destruct s1; [|discriminate]. simpl in Heq. subst s2. auto.
  - destruct (nullable a) eqn:Na.
    + rewrite matches_Alt, orb_true_iff, IH. split.
      * intros [(s1 & s2 & Heq & H1 & H2)|H].
        -- exists (String c s1), s2. subst. auto.
        -- exists "", (String c s). auto.
      * intros (s1 & s2 & Heq & H1 & H2). destruct s1 as [|c1 s1]; simpl in *.
        -- right. subst s2. exact H2.
        -- left. inversion Heq; subst. exists s1, s2. auto.
    + rewrite IH. split.
      * intros (s1 & s2 & Heq & H1 & H2). exists (String c s1), s2. subst. auto.
      * intros (s1 & s2 & Heq & H1 & H2). destruct s1 as [|c1 s1]; simpl in *.
        -- congruence.
        -- inversion Heq; subst. exists s1, s2. auto.
Qed.

Lemma matches_Star_Class p s : matches (Star (Class p)) s = all_chars p s.
Proof.
  induction s as [|c s IH]; simpl; [reflexivity|].
  destruct (p c); simpl; [now rewrite matches_Cat_Eps | apply matches_Cat_Void].
Qed.

Lemma all_chars_app p u w :
  all_chars p (u ++ w) = all_chars p u && all_chars p w.
Proof. induction u as [|c u IH]; simpl; [reflexivity|]. now rewrite IH, andb_assoc. Qed.

Lemma last_char_snoc u d : last_char (u ++ String d "") = Some d.
Proof.
  induction u as [|c u IH]; simpl; [reflexivity|].
  destruct (u ++ String d "") eqn:E; [|assumption].
  destruct u; discriminate.
Qed.

Lemma last_char_split s d :
  last_char s = Some d -> exists u, s = u ++ String d "".
Proof.
  induction s as [|c s IH]; simpl; [discriminate|].
  destruct s as [|c' s].
  - intros [= ->]. now exists "".
  - intros H. destruct (IH H) as [u Hu]. exists (String c u). simpl. now rewrite <- Hu.
Qed.

Lemma lower_is_lower_or_hyphen c : lower c = true -> lower_or_hyphen c = true.
Proof. unfold lower_or_hyphen. now intros ->. Qed.

(** [[a-z-]*[a-z]]: a run of letters and hyphens that ends with a letter. *)
Lemma matches_run s :
  matches (Cat (Star (Class lower_or_hyphen)) (Class lower)) s
  = all_chars lower_or_hyphen s && is_some_lower (last_char s).
Proof.
  apply Bool.eq_iff_eq_true. rewrite matches_Cat, andb_true_iff. split.
  - intros (u & w & -> & Hu & Hw).
    rewrite matches_Star_Class in Hu. rewrite matches_Class in Hw.
    destruct w as [|d [|? ?]]; try discriminate.
    rewrite all_chars_app, last_char_snoc, Hu. simpl.
    now rewrite (lower_is_lower_or_hyphen d Hw).
  - intros [Hall Hlast].
    destruct (last_char s) as [d|] eqn:Hd; [|discriminate].
    destruct (last_char_split s d Hd) as [u ->].
    rewrite all_chars_app in Hall. apply andb_prop in Hall as [Hu _].
    exists u, (String d ""). rewrite matches_Star_Class, matches_Class. auto.
Qed.

(** The compiled rule and the grammar of the specification accept the same
    names. *)
Lemma actionNameRule_grammar name :
  MatchString actionNameRule name = valid_action_name name.
Proof.
  unfold MatchString, actionNameRule, Quest, valid_action_name.
  rewrite matches_Cat_Class. destruct name as [|c t]; [reflexivity|].
  rewrite matches_Alt, matches_run, matches_Eps.
  cbn [all_chars first_char is_some_lower].
  destruct t as [|d t].
  - simpl. destruct (lower c) eqn:Hc; simpl.
    + now rewrite (lower_is_lower_or_hyphen c Hc).
    + now rewrite !andb_false_r.
  - rewrite orb_false_r.
    change (last_char (String c (String d t))) with (last_char (String d t)).
    destruct (lower c) eqn:Hc; simpl.
    + rewrite (lower_is_lower_or_hyphen c Hc). simpl. now rewrite andb_true_r.
    + now rewrite !andb_false_r.
Qed.

End RegexpFacts.

(** ** Building the actions: [ReadActionsYaml] *)

Module ActionsFacts.
Import Go Regexp Charm Vocabulary MapFacts CleanseFacts RegexpFacts.

(** *** The errors of [cleanse] *)

Lemma cleanse_map_error_kinds (f : iface -> result iface) m :
  forall acc e,
    (forall k x e', In (k, x) m -> f x = Err e' -> cleanse_error e') ->
    cleanse_map m (fun _ v _ => f v) acc = Err e -> cleanse_error e.
Proof.
  induction m as [|[k x] m IH]; simpl; intros acc e Hf H; [discriminate|].
  destruct (prohibitedSchemaKeys k) eqn:Ek.
  - inversion H; subst. right. eauto.
  - destruct (f x) as [y|e'] eqn:Ex.
    + apply (IH _ _ (fun k0 x0 e0 Hin => Hf k0 x0 e0 (or_intror Hin)) H).
    + inversion H; subst. apply (Hf k x e); auto.
Qed.

Lemma cleanse_slice_error_kinds (f : iface -> result iface) l :
  forall acc e, cleanse_slice l (fun v _ => f v) acc = Err e -> e = ErrNonStringKey.
Proof.
  induction l as [|x l IH]; simpl; intros acc e H; [discriminate|].
  destruct (f x); [eauto | congruence].
Qed.

Lemma map_set_In {V} k (v : V) m k' v' :
  In (k', v') (map_set k v m) -> (k', v') = (k, v) \/ In (k', v') m.
Proof.
  induction m as [|[k0 v0] m IH]; simpl.
  - intros [H|[]]; auto.
  - destruct (String.eqb k k0); simpl; intros [H|H]; auto.
    destruct (IH H); auto.
Qed.

Lemma cleanse_keys_In m :
  forall acc out k x,
    cleanse_keys m acc = Ok out -> In (k, x) out ->
    In (k, x) acc \/ In (SStr k, x) m.
Proof.
  induction m as [|[c y] m IH]; simpl; intros acc out k x H Hin.
  - inversion H; subst. auto.
  - destruct c; try discriminate.
    destruct (IH _ _ _ _ H Hin) as [Hacc|Hm]; auto.
    apply map_set_In in Hacc as [Heq|Hacc]; auto.
    inversion Heq; subst. auto.
Qed.

Lemma cleanse_keys_error m :
  forall acc e, cleanse_keys m acc = Err e -> e = ErrNonStringKey.
Proof.
  induction m as [|[c y] m IH]; simpl; intros acc e H; [discriminate|].
  destruct c; try congruence. eauto.
Qed.

(** [cleanse] fails with one of its two errors only. *)
Lemma cleanse_error_kinds v :
  forall e, cleanse v = Err e -> cleanse_error e.
Proof.
  induction v as [c|l IH|m IH|m IH] using iface_nested_ind; intros e H.
  - rewrite cleanse_scalar in H. discriminate.
  - rewrite cleanse_VSlice in H. left. eapply cleanse_slice_error_kinds; eauto.
  - rewrite cleanse_VMapS in H. rewrite Forall_forall in IH.
    eapply cleanse_map_error_kinds; [|exact H].
    intros k x e' Hin. apply (IH _ Hin).
  - rewrite cleanse_VMapI in H. rewrite Forall_forall in IH.
    destruct (cleanse_keys m []) as [newMap|e'] eqn:Hk.
    + rewrite cleanse_VMapS in H.
      eapply cleanse_map_error_kinds; [|exact H].
      intros k x e' Hin.
      destruct (cleanse_keys_In _ _ _ _ _ Hk Hin) as [[]|Hm].
      apply (IH _ Hm).
    + inversion H; subst. left. eapply cleanse_keys_error; eauto.
Qed.

(** *** One entry of an action's spec *)

(** An iteration of the loop over [actionSpec] does what the per-key rules
    say. *)
Lemma range_actionSpec_step key value rest desc schema :
  range_actionSpec ((key, value) :: rest) desc schema =
  match entry_error key value with
  | Some err => Err err
  | None =>
      range_actionSpec rest (entry_desc key value desc) (entry_schema key value schema)
  end.
Proof.
  cbn [range_actionSpec]. unfold entry_error, entry_desc, entry_schema.
  destruct (String.eqb key "description") eqn:E1.
  { apply String.eqb_eq in E1. subst key. cbn.
    destruct value as [[]| | |]; reflexivity. }
  destruct (String.eqb key "title") eqn:E2.
  { apply String.eqb_eq in E2. subst key. cbn.
    destruct value as [[]| | |]; reflexivity. }
  destruct (String.eqb key "required") eqn:E3.
  { apply String.eqb_eq in E3. subst key. cbn.
    destruct value as [[]| | |]; reflexivity. }
  cbn [orb]. destruct (String.eqb key "params") eqn:E4.
  - destruct (cleanse value) as [[c|l|m|m]|e]; reflexivity.
  - destruct (cleanse value) as [y|e]; reflexivity.
Qed.

Lemma entry_error_kinds key value e :
  entry_error key value = Some e ->
  e = ErrMustBeString key \/ e = ErrMustBeList key \/ e = ErrParamsNotMap
  \/ cleanse_error e.
Proof.
  unfold entry_error.
  destruct (String.eqb key "description" || String.eqb key "title").
  { destruct (is_str value); intros [= <-]; auto. }
  destruct (String.eqb key "required").
  { destruct (is_slice value); intros [= <-]; auto. }
  destruct (cleanse value) as [y|e'] eqn:Hc.
  - destruct (String.eqb key "params" && negb (is_smap y)); intros [= <-]; auto.
  - intros [= <-]. do 3 right. eapply cleanse_error_kinds; eauto.
Qed.

Lemma range_actionSpec_error_kinds actionSpec :
  forall desc schema e,
    range_actionSpec actionSpec desc schema = Err e ->
    exists key value, In (key, value) actionSpec /\ entry_error key value = Some e.
Proof.
  induction actionSpec as [|[key value] rest IH]; intros desc schema e H.
  - discriminate.
  - rewrite range_actionSpec_step in H.
    destruct (entry_error key value) as [e'|] eqn:He.
    + inversion H; subst. exists key, value. split; [now left | assumption].
    + destruct (IH _ _ _ H) as (k & x & Hin & Hk). exists k, x. split; [now right | assumption].
Qed.

Lemma range_actionSpec_fails actionSpec :
  forall desc schema key value e,
    In (key, value) actionSpec -> entry_error key value = Some e ->
    exists err, range_actionSpec actionSpec desc schema = Err err.
Proof.
  induction actionSpec as [|[k x] rest IH]; intros desc schema key value e Hin He.
  - contradiction.
  - rewrite range_actionSpec_step.
    destruct (entry_error k x) as [e'|] eqn:Hk; [eauto|].
    destruct Hin as [Heq|Hin]; [inversion Heq; subst; congruence|].
    eapply IH; eauto.
Qed.

Lemma entry_schema_other k key value schema :
  k <> entry_target key ->
  map_get k (entry_schema key value schema) = map_get k schema.
Proof.
  unfold entry_target, entry_schema. intros Hk.
  destruct (String.eqb key "params") eqn:Ep.
  - apply String.eqb_eq in Ep. subst key. cbn.
    destruct (cleanse value); [now apply map_get_set_other | reflexivity].
  - destruct (String.eqb key "description" || String.eqb key "title"
              || String.eqb key "required").
    + now apply map_get_set_other.
    + destruct (cleanse value); [now apply map_get_set_other | reflexivity].
Qed.

Lemma map_get_set_some {V} k k' (v : V) m :
  map_get k m <> None -> map_get k (map_set k' v m) <> None.
Proof.
  destruct (String.eqb k k') eqn:E.
  - apply String.eqb_eq in E. subst. rewrite map_get_set_same. discriminate.
  - apply String.eqb_neq in E. now rewrite map_get_set_other.
Qed.

Lemma entry_schema_keeps k key value schema :
  map_get k schema <> None -> map_get k (entry_schema key value schema) <> None.
Proof.
  unfold entry_schema. intros Hk.
  destruct (String.eqb key "description" || String.eqb key "title"
            || String.eqb key "required").
  - now apply map_get_set_some.
  - destruct (cleanse value); [now apply map_get_set_some | assumption].
Qed.

(** What the loop over an action's spec leaves in place. *)
Lemma range_actionSpec_untouched actionSpec :
  forall desc schema desc' schema',
    range_actionSpec actionSpec desc schema = Ok (desc', schema') ->
    forall k,
      (map_get k schema <> None -> map_get k schema' <> None)
      /\ (~ In k (map entry_target (map fst actionSpec)) ->
          map_get k schema' = map_get k schema).
Proof.
  induction actionSpec as [|[key value] rest IH]; intros desc schema desc' schema' H k.
  - inversion H; subst. auto.
  - rewrite range_actionSpec_step in H.
    destruct (entry_error key value); [discriminate|].
    destruct (IH _ _ _ _ H k) as [Hkeep Hsame]. split.
    + intros Hk. apply Hkeep. now apply entry_schema_keeps.
    + cbn [map In]. intros Hnot. rewrite Hsame by tauto.
      apply entry_schema_other. intros ->. tauto.
Qed.

(** The recorded description and the [description] entry of the schema
    move together. *)
Lemma range_actionSpec_description actionSpec :
  forall desc schema desc' schema',
    range_actionSpec actionSpec desc schema = Ok (desc', schema') ->
    map_get "description" schema = Some (VStr desc) ->
    map_get "description" schema' = Some (VStr desc')
    /\ (desc' = desc \/ In ("description", VStr desc') actionSpec).
Proof.
  induction actionSpec as [|[key value] rest IH]; intros desc schema desc' schema' H Hd.
  - inversion H; subst. auto.
  - rewrite range_actionSpec_step in H.
    destruct (entry_error key value) eqn:He; [discriminate|].
    destruct (String.eqb key "description") eqn:Ek.
    + apply String.eqb_eq in Ek. subst key.
      unfold entry_error in He. cbn in He.
      destruct value as [[| | | |typed]| | |]; try discriminate.
      cbn in H. destruct (IH _ _ _ _ H (map_get_set_same _ _ _)) as [Hs [->|Hin]].
      * split; [assumption|]. right. now left.
      * split; [assumption|]. right. now right.
    + assert (Hdesc : entry_desc key value desc = desc).
      { unfold entry_desc. now rewrite Ek. }
      rewrite Hdesc in H.
      destruct (IH _ _ _ _ H) as [Hs Hor].
      * rewrite entry_schema_other; [assumption|].
        unfold entry_target. destruct (String.eqb key "params"); [discriminate|].
        intros <-. now rewrite String.eqb_refl in Ek.
      * split; [assumption|]. destruct Hor; [now left | right; now right].
Qed.

(** *** The loop over the actions *)

Section Actions.
Variable X : External.

Lemma range_actions_fails_entry doc :
  forall specs name actionSpec key value e,
    In (name, actionSpec) doc -> In (key, value) actionSpec ->
    entry_error key value = Some e ->
    exists err, range_actions X doc specs = Err err.
Proof.
  induction doc as [|[n a] doc IH]; intros specs name actionSpec key value e Hin Hk He.
  - contradiction.
  - cbn [range_actions]. destruct (MatchString actionNameRule n); cbn [negb]; [|eauto].
    destruct (range_actionSpec a "No description" (scaffold n)) as [[d sch]|err] eqn:Ha;
      [|eauto].
    destruct (NewJsonSchemaDocument X (VMapS sch)); [|eauto].
    destruct Hin as [Heq|Hin]; [|eapply IH; eauto].
    inversion Heq; subst.
    destruct (range_actionSpec_fails actionSpec "No description" (scaffold name)
                key value e Hk He) as [err Herr].
    congruence.
Qed.

Lemma range_actions_fails_name doc :
  forall specs name,
    In name (map fst doc) -> MatchString actionNameRule name = false ->
    exists err, range_actions X doc specs = Err err.
Proof.
  induction doc as [|[n a] doc IH]; intros specs name Hin Hname.
  - contradiction.
  - cbn [range_actions]. destruct (MatchString actionNameRule n) eqn:Hn; cbn [negb]; [|eauto].
    destruct (range_actionSpec a "No description" (scaffold n)) as [[d sch]|err]; [|eauto].
    destruct (NewJsonSchemaDocument X (VMapS sch)); [|eauto].
    destruct Hin as [Heq|Hin]; [simpl in Heq; congruence|].
    eapply IH; eauto.
Qed.

Lemma range_actions_bad_name doc :
  forall specs name,
    range_actions X doc specs = Err (ErrBadActionName name) ->
    In name (map fst doc) /\ MatchString actionNameRule name = false.
Proof.
  induction doc as [|[n a] doc IH]; intros specs name H.
  - discriminate.
  - cbn [range_actions] in H.
    destruct (MatchString actionNameRule n) eqn:Hn; cbn [negb] in H.
    + destruct (range_actionSpec a "No description" (scaffold n))
        as [[d sch]|err] eqn:Ha.
      * destruct (NewJsonSchemaDocument X (VMapS sch)); [|discriminate].
        destruct (IH _ _ H). split; [now right | assumption].
      * inversion H; subst.
        apply range_actionSpec_error_kinds in Ha as (k & x & _ & He).
        apply entry_error_kinds in He
          as [He|[He|[He|[He|(? & _ & He)]]]]; discriminate.
    + inversion H; subst. split; [now left | assumption].
Qed.

(** Every spec of the result was built from an entry of the document,
    starting from the scaffold. *)
Lemma range_actions_provenance doc :
  forall specs acts,
    range_actions X doc specs = Ok acts ->
    forall name spec,
      map_get name (ActionSpecs acts) = Some spec ->
      map_get name specs = Some spec
      \/ exists actionSpec,
          In (name, actionSpec) doc
          /\ MatchString actionNameRule name = true
          /\ range_actionSpec actionSpec "No description" (scaffold name)
             = Ok (Description spec, Params spec)
          /\ exists d, NewJsonSchemaDocument X (VMapS (Params spec)) = Done d.
Proof.
  induction doc as [|[n a] doc IH]; intros specs acts H name spec Hget.
  - inversion H; subst. now left.
  - cbn [range_actions] in H.
    destruct (MatchString actionNameRule n) eqn:Hn; cbn [negb] in H; [|discriminate].
    destruct (range_actionSpec a "No description" (scaffold n))
      as [[d sch]|err] eqn:Ha; [|discriminate].
    destruct (NewJsonSchemaDocument X (VMapS sch)) as [jd|] eqn:Hj; [|discriminate].
    destruct (IH _ _ H _ _ Hget) as [Hset|(a' & Hin & Hrest)].
    + destruct (String.eqb name n) eqn:E.
      * apply String.eqb_eq in E. subst n.
        rewrite map_get_set_same in Hset. inversion Hset; subst spec.
        right. exists a. cbn [Description Params].
        split; [now left|]. split; [assumption|]. split; [assumption|]. eauto.
      * apply String.eqb_neq in E.
        rewrite map_get_set_other in Hset by assumption. now left.
    + right. exists a'. split; [now right | assumption].
Qed.

(** Every action of the document has its spec in the result. *)
Lemma range_actions_complete doc :
  forall specs acts,
    range_actions X doc specs = Ok acts ->
    forall name,
      In name (map fst doc) \/ map_get name specs <> None ->
      map_get name (ActionSpecs acts) <> None.
Proof.
  induction doc as [|[n a] doc IH]; intros specs acts H name Hname.
  - inversion H; subst. destruct Hname as [[]|]; assumption.
  - cbn [range_actions] in H.
    destruct (MatchString actionNameRule n); cbn [negb] in H; [|discriminate].
    destruct (range_actionSpec a "No description" (scaffold n))
      as [[d sch]|err]; [|discriminate].
    destruct (NewJsonSchemaDocument X (VMapS sch)); [|discriminate].
    apply (IH _ _ H). destruct Hname as [[Heq|Hin]|Hs].
    + right. simpl in Heq. subst. rewrite map_get_set_same. discriminate.
    + now left.
    + right. now apply map_get_set_some.
Qed.
End Actions.

(** *** The first thing that fails *)

(** The loop over an action's spec stops at the first entry that does not
    pass, with that entry's error. *)
Lemma range_actionSpec_stops pre :
  forall key value post desc schema err,
    (forall k v, In (k, v) pre -> entry_error k v = None) ->
    entry_error key value = Some err ->
    range_actionSpec (pre ++ (key, value) :: post)%list desc schema = Err err.
Proof.
  induction pre as [|[k v] pre IH]; intros key value post desc schema err Hpre He.
  - cbn [app]. now rewrite range_actionSpec_step, He.
  - cbn [app]. rewrite range_actionSpec_step, (Hpre k v (or_introl eq_refl)).
    apply IH; [|assumption]. intros k' v' Hin. apply Hpre. now right.
Qed.

Lemma range_actionSpec_first_error actionSpec :
  forall desc schema err,
    range_actionSpec actionSpec desc schema = Err err ->
    exists pre key value post,
      actionSpec = (pre ++ (key, value) :: post)%list
      /\ (forall k v, In (k, v) pre -> entry_error k v = None)
      /\ entry_error key value = Some err.
Proof.
  induction actionSpec as [|[k v] rest IH]; intros desc schema err H; [discriminate|].
  rewrite range_actionSpec_step in H.
  destruct (entry_error k v) as [e|] eqn:He.
  - inversion H; subst. exists [], k, v, rest. repeat split; [intros ? ? []|assumption].
  - destruct (IH _ _ _ H) as (pre & key & value & post & -> & Hpre & Hkey).
    exists ((k, v) :: pre), key, value, post. repeat split; [|assumption].
    intros k' v' [Heq|Hin]; [inversion Heq; subst; assumption | now apply Hpre].
Qed.

(** The loop over the actions goes past every action that builds. *)
Lemma range_actions_past X healthy :
  (forall action, In action healthy -> builds X action) ->
  forall rest specs,
  exists specs',
    range_actions X (healthy ++ rest)%list specs = range_actions X rest specs'.
Proof.
  induction healthy as [|[n a] healthy IH]; intros Hall rest specs.
  - exists specs. reflexivity.
  - destruct (Hall (n, a) (or_introl eq_refl)) as (Hn & d & sch & j & Ha & Hj).
    cbn [fst snd] in *. cbn [app range_actions]. rewrite Hn, Ha, Hj. cbn [negb].
    apply IH. intros action Hin. apply Hall. now right.
Qed.

(** It stops at the first action that does not build: with "bad action
    name" for a name outside the grammar, else with the error of the first
    entry that does not pass, else with the schema library's error,
    annotated with the action's name. *)
Lemma range_actions_stops_name X healthy name actionSpec rest specs :
  (forall action, In action healthy -> builds X action) ->
  MatchString actionNameRule name = false ->
  range_actions X (healthy ++ (name, actionSpec) :: rest)%list specs
  = Err (ErrBadActionName name).
Proof.
  intros Hall Hname.
  destruct (range_actions_past X healthy Hall ((name, actionSpec) :: rest) specs)
    as [specs' ->].
  cbn [range_actions]. now rewrite Hname.
Qed.

Lemma range_actions_stops_entry X healthy name actionSpec rest specs err :
  (forall action, In action healthy -> builds X action) ->
  MatchString actionNameRule name = true ->
  range_actionSpec actionSpec "No description" (scaffold name) = Err err ->
  range_actions X (healthy ++ (name, actionSpec) :: rest)%list specs = Err err.
Proof.
  intros Hall Hname Herr.
  destruct (range_actions_past X healthy Hall ((name, actionSpec) :: rest) specs)
    as [specs' ->].
  cbn [range_actions]. now rewrite Hname, Herr.
Qed.

Lemma range_actions_stops_schema X healthy name actionSpec rest specs desc schema msg :
  (forall action, In action healthy -> builds X action) ->
  MatchString actionNameRule name = true ->
  range_actionSpec actionSpec "No description" (scaffold name) = Ok (desc, schema) ->
  NewJsonSchemaDocument X (VMapS schema) = Failed msg ->
  range_actions X (healthy ++ (name, actionSpec) :: rest)%list specs
  = Err (ErrInvalidSchema name (ErrExternal msg)).
Proof.
  intros Hall Hname Hbuilt Hfail.
  destruct (range_actions_past X healthy Hall ((name, actionSpec) :: rest) specs)
    as [specs' ->].
  cbn [range_actions]. now rewrite Hname, Hbuilt, Hfail.
Qed.

Lemma range_actions_first_failure X doc :
  forall specs e,
    range_actions X doc specs = Err e ->
    exists healthy name actionSpec rest,
      doc = (healthy ++ (name, actionSpec) :: rest)%list
      /\ (forall action, In action healthy -> builds X action)
      /\ ((MatchString actionNameRule name = false /\ e = ErrBadActionName name)
          \/ (MatchString actionNameRule name = true
              /\ range_actionSpec actionSpec "No description" (scaffold name) = Err e)
          \/ (MatchString actionNameRule name = true
              /\ exists desc schema msg,
                  range_actionSpec actionSpec "No description" (scaffold name)
                  = Ok (desc, schema)
                  /\ NewJsonSchemaDocument X (VMapS schema) = Failed msg
                  /\ e = ErrInvalidSchema name (ErrExternal msg))).
Proof.
  induction doc as [|[n a] doc IH]; intros specs e H; [discriminate|].
  cbn [range_actions] in H.
  destruct (MatchString actionNameRule n) eqn:Hn; cbn [negb] in H.
  - destruct (range_actionSpec a "No description" (scaffold n))
      as [[d sch]|err] eqn:Ha.
    + destruct (NewJsonSchemaDocument X (VMapS sch)) as [j|msg] eqn:Hj.
      * destruct (IH _ _ H) as (healthy & name & a' & rest & -> & Hall & Hcase).
        exists ((n, a) :: healthy), name, a', rest.
        split; [reflexivity|]. split; [|exact Hcase].
        intros action [<-|Hin]; [|now apply Hall].
        split; [exact Hn|]. exists d, sch, j. auto.
      * inversion H; subst. exists [], n, a, doc.
        split; [reflexivity|]. split; [intros ? []|].
        right. right. split; [assumption|]. exists d, sch, msg. auto.
    + inversion H; subst. exists [], n, a, doc.
      split; [reflexivity|]. split; [intros ? []|]. right. left. auto.
  - inversion H; subst. exists [], n, a, doc.
    split; [reflexivity|]. split; [intros ? []|]. left. auto.
Qed.

Lemma range_actions_defect X doc name key value err :
  visited_first X doc name key value ->
  entry_error key value = Some err ->
  range_actions X doc [] = Err err.
Proof.
  intros (healthy & pre & post & rest & -> & Hall & Hname & Hpre) He.
  apply range_actions_stops_entry; [assumption | assumption |].
  now apply range_actionSpec_stops.
Qed.

Lemma entry_error_string key value :
  key = "description" \/ key = "title" -> is_str value = false ->
  entry_error key value = Some (ErrMustBeString key).
Proof.
  unfold entry_error. intros [-> | ->] Hs; cbn; now rewrite Hs.
Qed.

Lemma entry_error_list value :
  is_slice value = false ->
  entry_error "required" value = Some (ErrMustBeList "required").
Proof. unfold entry_error. intros Hs. cbn. now rewrite Hs. Qed.

Lemma entry_error_cleanse key value err :
  ~ In key ["description"; "title"; "required"] ->
  cleanse value = Err err ->
  entry_error key value = Some err.
Proof.
  unfold entry_error. intros Hkey Hc.
  destruct (String.eqb key "description") eqn:E1;
    [apply String.eqb_eq in E1; subst; cbn in Hkey; tauto|].
  destruct (String.eqb key "title") eqn:E2;
    [apply String.eqb_eq in E2; subst; cbn in Hkey; tauto|].
  destruct (String.eqb key "required") eqn:E3;
    [apply String.eqb_eq in E3; subst; cbn in Hkey; tauto|].
  cbn [orb]. now rewrite Hc.
Qed.

Lemma entry_error_params value canonical :
  cleanse value = Ok canonical -> is_smap canonical = false ->
  entry_error "params" value = Some ErrParamsNotMap.
Proof. unfold entry_error. intros Hc Hm. cbn. now rewrite Hc, Hm. Qed.

(** *** The claims about [ReadActionsYaml] *)

Lemma ReadActionsYaml_decoded X r data doc :
  ReadAll X r = Done data -> Unmarshal X data = Done doc ->
  ReadActionsYaml X r = range_actions X doc [].
Proof. unfold ReadActionsYaml. now intros -> ->. Qed.

Lemma snapshot_built actionSpec params :
  Permutation [("description", VStr "take snapshot"); ("params", params)] actionSpec ->
  params = snapshot_params_decoded \/ params = snapshot_params_plain ->
  range_actionSpec actionSpec "No description" (scaffold "snapshot")
  = Ok ("take snapshot", snapshot_schema).
Proof.
  intros Hperm Hparams.
  apply Permutation_length_2_inv in Hperm.
  destruct Hperm as [->| ->], Hparams as [->| ->]; reflexivity.
Qed.

(** C2. For the action document [{snapshot: {description: "take snapshot",
    params: {outfile: {type: "string"}}}}], in whichever order its two keys
    are visited and whether its nested maps are interface-keyed (as decoded)
    or string-keyed, [ReadActionsYaml] succeeds as soon as the schema
    library compiles the built document, and the [Params] of [snapshot] are
    exactly [description], [type], [title] and [properties] as expected.
    More generally every spec of a result is what the loop over the action's
    keys makes of the scaffold: the four scaffold keys are present, and a
    key that no entry of the action writes to keeps the scaffold's value. *)
Theorem snapshot_action (X : External) (r : Reader X) (data : string)
        (doc : list (string * smap)) :
  ReadAll X r = Done data ->
  Unmarshal X data = Done doc ->
  (forall actionSpec params,
      doc = [("snapshot", actionSpec)] ->
      Permutation [("description", VStr "take snapshot"); ("params", params)] actionSpec ->
      params = snapshot_params_decoded \/ params = snapshot_params_plain ->
      (exists d, NewJsonSchemaDocument X (VMapS snapshot_schema) = Done d) ->
      ReadActionsYaml X r
      = Ok {| ActionSpecs :=
                [("snapshot", {| Description := "take snapshot";
                                 Params := snapshot_schema |})] |})
  /\ (forall acts,
         ReadActionsYaml X r = Ok acts ->
         forall name spec,
           map_get name (ActionSpecs acts) = Some spec ->
           exists actionSpec,
             In (name, actionSpec) doc
             /\ range_actionSpec actionSpec "No description"
                  [ ("description", VStr "No description");
                    ("type", VStr "object");
                    ("title", VStr name);
                    ("properties", VMapS []) ]
                = Ok (Description spec, Params spec)
             /\ (forall k, In k ["description"; "type"; "title"; "properties"] ->
                           map_get k (Params spec) <> None)
             /\ (forall k, ~ In k (map entry_target (map fst actionSpec)) ->
                           map_get k (Params spec) = map_get k (scaffold name))).
Proof.
  intros Hread Hdec. rewrite (ReadActionsYaml_decoded X r data doc Hread Hdec). split.
  - intros actionSpec params -> Hperm Hparams [d Hd].
    cbn [range_actions].
    change (MatchString actionNameRule "snapshot") with true. cbn [negb].
    rewrite (snapshot_built actionSpec params Hperm Hparams), Hd. reflexivity.
  - intros acts Hok name spec Hget.
    destruct (range_actions_provenance X doc [] acts Hok name spec Hget)
      as [Hnil|(actionSpec & Hin & _ & Hbuilt & _)]; [discriminate|].
    exists actionSpec. split; [assumption|]. split; [exact Hbuilt|].
    pose proof (range_actionSpec_untouched _ _ _ _ _ Hbuilt) as Hun. split.
    + intros k Hk. apply (Hun k).
      cbn in Hk. destruct Hk as [<-|[<-|[<-|[<-|[]]]]]; discriminate.
    + intros k Hk. now apply (Hun k).
Qed.

Lemma snapshot_action_witness :
  ReadActionsYaml
    (stub_external
       [("snapshot", [("description", VStr "take snapshot");
                      ("params", snapshot_params_decoded)])]) tt
  = Ok {| ActionSpecs :=
            [("snapshot", {| Description := "take snapshot";
                             Params := snapshot_schema |})] |}.
Proof.
  refine (proj1 (snapshot_action
                   (stub_external
                      [("snapshot", [("description", VStr "take snapshot");
                                     ("params", snapshot_params_decoded)])])
                   tt "" _ eq_refl eq_refl) _ snapshot_params_decoded eq_refl _ _ _).
  - apply Permutation_refl.
  - now left.
  - exists tt. reflexivity.
Defined.

(** C7. The compiled [actionNameRule] accepts exactly the names of the
    grammar (a run of lowercase letters and hyphens, at least one character
    long, that begins and ends with a lowercase letter).  [ReadActionsYaml]
    answers "bad action name", naming the action, exactly when the first
    action that does not build has a name outside the grammar, however many
    actions that build were visited before it; a name outside the grammar
    anywhere in the document fails the build; and on success every name of
    the document is in the grammar and has its spec in the result. *)
Theorem action_name_gate (X : External) (r : Reader X) (data : string)
        (doc : list (string * smap)) :
  ReadAll X r = Done data ->
  Unmarshal X data = Done doc ->
  (forall name, MatchString actionNameRule name = valid_action_name name)
  /\ (forall name,
         ReadActionsYaml X r = Err (ErrBadActionName name) ->
         In name (map fst doc) /\ valid_action_name name = false)
  /\ (forall name,
         In name (map fst doc) -> valid_action_name name = false ->
         exists err, ReadActionsYaml X r = Err err)
  /\ (forall name,
         ReadActionsYaml X r = Err (ErrBadActionName name) <->
         exists healthy actionSpec rest,
           doc = (healthy ++ (name, actionSpec) :: rest)%list
           /\ (forall action, In action healthy -> builds X action)
           /\ valid_action_name name = false)
  /\ (forall acts,
         ReadActionsYaml X r = Ok acts ->
         forall name, In name (map fst doc) ->
                      valid_action_name name = true
                      /\ map_get name (ActionSpecs acts) <> None)
  /\ MatchString actionNameRule "snapshot" = true
  /\ MatchString actionNameRule "Snapshot" = false
  /\ MatchString actionNameRule "-snap" = false
  /\ MatchString actionNameRule "snap-" = false
  /\ MatchString actionNameRule "" = false.
Proof.
  intros Hread Hdec. rewrite (ReadActionsYaml_decoded X r data doc Hread Hdec).
  split; [exact actionNameRule_grammar|].
  split.
  { intros name H. rewrite <- actionNameRule_grammar.
    eapply range_actions_bad_name; eauto. }
  split.
  { intros name Hin Hbad. rewrite <- actionNameRule_grammar in Hbad.
    eapply range_actions_fails_name; eauto. }
  split.
  { intros name. rewrite <- actionNameRule_grammar. split.
    - intros H.
      destruct (range_actions_first_failure X doc [] _ H)
        as (healthy & n & a & rest & Hdoc & Hall & Hcase).
      destruct Hcase as [[Hn He]|[[_ Ha]|(_ & d & sch & msg & _ & _ & He)]].
      + inversion He; subst n. exists healthy, a, rest. auto.
      + apply range_actionSpec_error_kinds in Ha as (k & x & _ & He).
        apply entry_error_kinds in He
          as [He|[He|[He|[He|(? & _ & He)]]]]; discriminate.
      + discriminate.
    - intros (healthy & actionSpec & rest & -> & Hall & Hbad).
      now apply range_actions_stops_name. }
  split; [|repeat split].
  intros acts Hok name Hin. split.
  - destruct (valid_action_name name) eqn:Hv; [reflexivity|].
    rewrite <- actionNameRule_grammar in Hv.
    destruct (range_actions_fails_name X doc [] name Hin Hv) as [err Herr].
    congruence.
  - eapply range_actions_complete; eauto.
Qed.

Lemma action_name_gate_witness :
  ReadActionsYaml
    (stub_external [("kill", [("description", VStr "x")]); ("snap-", [])]) tt
  = Err (ErrBadActionName "snap-").
Proof.
  destruct (action_name_gate
              (stub_external [("kill", [("description", VStr "x")]); ("snap-", [])])
              tt "" _ eq_refl eq_refl) as (_ & _ & _ & H & _).
  apply (proj2 (H "snap-")).
  exists [("kill", [("description", VStr "x")])], [], [].
  split; [reflexivity|]. split; [|reflexivity].
  intros action [<-|[]]. split; [reflexivity|].
  eexists _, _, tt. split; reflexivity.
Defined.

(** C8. Per-key shapes inside an action's spec.  A [description] or [title]
    that is not a string and a [required] that is not a sequence are refused
    with the wrong-type errors; a [required] sequence is stored as it is,
    without [cleanse]; [params] and every other key go through [cleanse],
    whose failure is handed on, and cleansed [params] that are not a
    string-keyed map are refused.  A refused entry anywhere in the document
    fails the whole build; the build fails with that entry's own error
    whenever the entry is reached, that is when the actions visited before
    build and the entries of its action visited before pass. *)
Theorem per_key_shapes (X : External) (r : Reader X) (data : string)
        (doc : list (string * smap)) :
  ReadAll X r = Done data ->
  Unmarshal X data = Done doc ->
  (forall key value rest desc schema,
      key = "description" \/ key = "title" -> is_str value = false ->
      range_actionSpec ((key, value) :: rest) desc schema = Err (ErrMustBeString key))
  /\ (forall value rest desc schema,
         is_slice value = false ->
         range_actionSpec (("required", value) :: rest) desc schema
         = Err (ErrMustBeList "required"))
  /\ (forall l rest desc schema,
         range_actionSpec (("required", VSlice l) :: rest) desc schema
         = range_actionSpec rest desc (map_set "required" (VSlice l) schema))
  /\ (forall value rest desc schema,
         range_actionSpec (("params", value) :: rest) desc schema
         = match cleanse value with
           | Err err => Err err
           | Ok (VMapS typed) =>
               range_actionSpec rest desc (map_set "properties" (VMapS typed) schema)
           | Ok _ => Err ErrParamsNotMap
           end)
  /\ (forall key value rest desc schema,
         ~ In key ["description"; "title"; "required"; "params"] ->
         range_actionSpec ((key, value) :: rest) desc schema
         = match cleanse value with
           | Err err => Err err
           | Ok typed => range_actionSpec rest desc (map_set key typed schema)
           end)
  /\ (forall desc schema,
         range_actionSpec [("required", VSlice [VMapI [(SInt 1, VNil)]])] desc schema
         = Ok (desc, map_set "required" (VSlice [VMapI [(SInt 1, VNil)]]) schema)
         /\ range_actionSpec [("extra", VSlice [VMapI [(SInt 1, VNil)]])] desc schema
            = Err ErrNonStringKey)
  /\ (forall key value rest desc schema,
         range_actionSpec ((key, value) :: rest) desc schema
         = match entry_error key value with
           | Some err => Err err
           | None =>
               range_actionSpec rest (entry_desc key value desc)
                                (entry_schema key value schema)
           end)
  /\ (forall name actionSpec key value err,
         In (name, actionSpec) doc -> In (key, value) actionSpec ->
         entry_error key value = Some err ->
         exists err', ReadActionsYaml X r = Err err')
  /\ (forall name key value err,
         visited_first X doc name key value ->
         entry_error key value = Some err ->
         ReadActionsYaml X r = Err err)
  /\ (forall name key value,
         visited_first X doc name key value ->
         key = "description" \/ key = "title" -> is_str value = false ->
         ReadActionsYaml X r = Err (ErrMustBeString key))
  /\ (forall name value,
         visited_first X doc name "required" value ->
         is_slice value = false ->
         ReadActionsYaml X r = Err (ErrMustBeList "required"))
  /\ (forall name key value err,
         visited_first X doc name key value ->
         ~ In key ["description"; "title"; "required"] ->
         cleanse value = Err err ->
         ReadActionsYaml X r = Err err)
  /\ (forall name value canonical,
         visited_first X doc name "params" value ->
         cleanse value = Ok canonical -> is_smap canonical = false ->
         ReadActionsYaml X r = Err ErrParamsNotMap).
Proof.
  intros Hread Hdec. rewrite (ReadActionsYaml_decoded X r data doc Hread Hdec).
  split.
  { intros key value rest desc schema Hkey Hstr. rewrite range_actionSpec_step.
    unfold entry_error. destruct Hkey as [-> | ->]; cbn; now rewrite Hstr. }
  split.
  { intros value rest desc schema Hsl. rewrite range_actionSpec_step.
    unfold entry_error. cbn. now rewrite Hsl. }
  split; [reflexivity|].
  split.
  { intros value rest desc schema. cbn.
    destruct (cleanse value) as [[c|l|m|m]|e]; reflexivity. }
  split.
  { intros key value rest desc schema Hkey. cbn [range_actionSpec].
    destruct (String.eqb key "description") eqn:E1;
      [apply String.eqb_eq in E1; subst; cbn in Hkey; tauto|].
    destruct (String.eqb key "title") eqn:E2;
      [apply String.eqb_eq in E2; subst; cbn in Hkey; tauto|].
    destruct (String.eqb key "required") eqn:E3;
      [apply String.eqb_eq in E3; subst; cbn in Hkey; tauto|].
    destruct (String.eqb key "params") eqn:E4;
      [apply String.eqb_eq in E4; subst; cbn in Hkey; tauto|].
    reflexivity. }
  split; [intros; split; reflexivity|].
  split; [exact range_actionSpec_step|].
  split.
  { intros name actionSpec key value err Hin Hk He.
    eapply range_actions_fails_entry; eauto. }
  split.
  { intros name key value err Hfirst He.
    exact (range_actions_defect X doc name key value err Hfirst He). }
  split.
  { intros name key value Hfirst Hkey Hstr.
    apply (range_actions_defect X doc name key value _ Hfirst).
    now apply entry_error_string. }
  split.
  { intros name value Hfirst Hsl.
    apply (range_actions_defect X doc name "required" value _ Hfirst).
    now apply entry_error_list. }
  split.
  { intros name key value err Hfirst Hkey Hc.
    apply (range_actions_defect X doc name key value _ Hfirst).
    now apply entry_error_cleanse. }
  intros name value canonical Hfirst Hc Hm.
  apply (range_actions_defect X doc name "params" value _ Hfirst).
  now apply (entry_error_params value canonical).
Qed.

Lemma per_key_shapes_witness :
  ReadActionsYaml
    (stub_external
       [("kill", []);
        ("snapshot", [("title", VStr "Snap"); ("description", VInt 5);
                      ("params", VSlice [])])]) tt
  = Err (ErrMustBeString "description").
Proof.
  destruct (per_key_shapes
              (stub_external
                 [("kill", []);
                  ("snapshot", [("title", VStr "Snap"); ("description", VInt 5);
                                ("params", VSlice [])])])
              tt "" _ eq_refl eq_refl) as (_ & _ & _ & _ & _ & _ & _ & _ & _ & H & _).
  apply (H "snapshot" "description" (VInt 5)); [|now left|reflexivity].
  exists [("kill", [])], [("title", VStr "Snap")], [("params", VSlice [])], [].
  split; [reflexivity|]. split; [|split; [reflexivity|]].
  - intros action [<-|[]]. split; [reflexivity|].
    eexists _, _, tt. split; reflexivity.
  - intros k v [Heq|[]]. inversion Heq; subst. reflexivity.
Defined.

(** C10. In every [Actions] that [ReadActionsYaml] returns, the
    [Description] of each [ActionSpec] is the string stored under
    [description] in its [Params]; it is "No description" or a description
    string that the document gives for that action. *)
Theorem description_matches_params (X : External) (r : Reader X) (acts : Actions) :
  ReadActionsYaml X r = Ok acts ->
  forall name spec,
    map_get name (ActionSpecs acts) = Some spec ->
    map_get "description" (Params spec) = Some (VStr (Description spec))
    /\ (Description spec = "No description"
        \/ exists data doc actionSpec,
            ReadAll X r = Done data /\ Unmarshal X data = Done doc
            /\ In (name, actionSpec) doc
            /\ In ("description", VStr (Description spec)) actionSpec).
Proof.
  unfold ReadActionsYaml. intros Hok name spec Hget.
  destruct (ReadAll X r) as [data|] eqn:Hread; [|discriminate].
  destruct (Unmarshal X data) as [doc|] eqn:Hdec; [|discriminate].
  destruct (range_actions_provenance X doc [] acts Hok name spec Hget)
    as [Hnil|(actionSpec & Hin & _ & Hbuilt & _)]; [discriminate|].
  destruct (range_actionSpec_description _ _ _ _ _ Hbuilt eq_refl) as [Hd Hor].
  split; [assumption|].
  destruct Hor as [?|Hdesc]; [now left|].
  right. exists data, doc, actionSpec. auto.
Qed.

Lemma description_matches_params_witness :
  map_get "description" snapshot_schema = Some (VStr "take snapshot").
Proof.
  refine (proj1 (description_matches_params
                   (stub_external
                      [("snapshot", [("params", snapshot_params_plain);
                                     ("description", VStr "take snapshot")])])
                   tt
                   {| ActionSpecs :=
                        [("snapshot", {| Description := "take snapshot";
                                         Params := snapshot_schema |})] |}
                   eq_refl "snapshot"
                   {| Description := "take snapshot"; Params := snapshot_schema |}
                   eq_refl)).
Defined.

End ActionsFacts.

(** ** Validating parameters: [ActionSpec.ValidateParams] *)

Module ValidateFacts.
Import Go Regexp Charm Vocabulary.

Lemma append_nil_r s : s ++ "" = s.
Proof. induction s as [|c s IH]; simpl; [reflexivity | now rewrite IH]. Qed.

Lemma append_assoc s t u : (s ++ t) ++ u = s ++ (t ++ u).
Proof. induction s as [|c s IH]; simpl; [reflexivity | now rewrite IH]. Qed.

(** Where a message stands in the joined text: after the join of the
    messages before it, before the join of those after it. *)
Lemma Join_split sep l1 msg l2 :
  Join (l1 ++ msg :: l2)%list sep
  = Join l1 sep ++ (match l1 with [] => "" | _ => sep end)
    ++ msg
    ++ (match l2 with [] => "" | _ => sep end) ++ Join l2 sep.
Proof.
  unfold Join. induction l1 as [|x l1 IH].
  - destruct l2; simpl; [now rewrite append_nil_r | reflexivity].
  - assert (Hhead : concat sep ((x :: l1) ++ msg :: l2)%list
                    = x ++ sep ++ concat sep (l1 ++ msg :: l2)%list).
    { destruct l1; reflexivity. }
    rewrite Hhead, IH. destruct l1 as [|y l1].
    + reflexivity.
    + cbn [concat]. now rewrite !append_assoc.
Qed.

(** C4, as the code has it.  When the schema library compiles
    [spec.Params]: [ValidateParams] returns (true, nil) if the instance is
    valid, and otherwise (false, err) where the text of [err] is "JSON
    validation failed: " followed by the messages of the validator's result
    joined by "; ", each message standing at its place in that text.  When
    the library does not compile [spec.Params], it returns (false, err)
    with the library's error.  It never returns true with an error. *)
Theorem ValidateParams_outcome (X : External) (spec : ActionSpec) (params : iface) :
  (forall specSchemaDoc,
      NewJsonSchemaDocument X (VMapS (Params spec)) = Done specSchemaDoc ->
      (Valid (Validate X specSchemaDoc params) = true ->
       ValidateParams X spec params = (true, None))
      /\ (Valid (Validate X specSchemaDoc params) = false ->
          exists err,
            ValidateParams X spec params = (false, Some err)
            /\ error_text err
               = "JSON validation failed: "
                 ++ Join (Errors (Validate X specSchemaDoc params)) "; "
            /\ forall l1 msg l2,
                Errors (Validate X specSchemaDoc params) = (l1 ++ msg :: l2)%list ->
                error_text err
                = "JSON validation failed: "
                  ++ Join l1 "; " ++ (match l1 with [] => "" | _ => "; " end)
                  ++ msg
                  ++ (match l2 with [] => "" | _ => "; " end) ++ Join l2 "; "))
  /\ (forall msg,
         NewJsonSchemaDocument X (VMapS (Params spec)) = Failed msg ->
         ValidateParams X spec params = (false, Some (ErrExternal msg))
         /\ error_text (ErrExternal msg) = msg)
  /\ (fst (ValidateParams X spec params) = true ->
      snd (ValidateParams X spec params) = None).
Proof.
  unfold ValidateParams. split; [|split].
  - intros specSchemaDoc Hdoc. rewrite Hdoc. split; intros Hv; rewrite Hv.
    + reflexivity.
    + eexists. split; [reflexivity|]. split; [reflexivity|].
      intros l1 msg l2 ->. cbn [error_text]. now rewrite Join_split.
  - intros msg Hfail. rewrite Hfail. split; reflexivity.
  - destruct (NewJsonSchemaDocument X (VMapS (Params spec))) as [d|msg];
      [|discriminate].
    destruct (Valid (Validate X d params)); [reflexivity | discriminate].
Qed.

Lemma ValidateParams_outcome_witness :
  exists err,
    ValidateParams
      (fixed_external (Done tt)
         {| Valid := false;
            Errors := ["outfile: must be of type string"; "extra: not allowed"] |})
      {| Description := "take snapshot"; Params := snapshot_schema |}
      (VMapS [("outfile", VInt 5); ("extra", VNil)])
    = (false, Some err)
    /\ error_text err
       = "JSON validation failed: outfile: must be of type string; extra: not allowed".
Proof.
  destruct (ValidateParams_outcome
              (fixed_external (Done tt)
                 {| Valid := false;
                    Errors := ["outfile: must be of type string"; "extra: not allowed"] |})
              {| Description := "take snapshot"; Params := snapshot_schema |}
              (VMapS [("outfile", VInt 5); ("extra", VNil)])) as [H _].
  destruct (H tt eq_refl) as [_ Hinvalid].
  destruct (Hinvalid eq_refl) as (err & Hret & Htext & _).
  exists err. split; [exact Hret | exact Htext].
Defined.

(** C4 as stated fails for an [ActionSpec] whose [Params] the schema library
    does not compile: the error returned is the library's own, and its text
    is not "JSON validation failed: ...". *)
Lemma ValidateParams_compile_failure :
  ValidateParams
    (fixed_external (Failed "type must be a string") {| Valid := false; Errors := [] |})
    {| Description := ""; Params := [("type", VInt 5)] |}
    (VMapS [])
  = (false, Some (ErrExternal "type must be a string"))
  /\ forall messages,
       error_text (ErrExternal "type must be a string")
       <> "JSON validation failed: " ++ Join messages "; ".
Proof.
  split; [reflexivity|]. intros messages H. cbn in H. discriminate.
Qed.

End ValidateFacts.

(** ** Resource descriptors: [ParseMeta] and [Meta.Validate] *)

Module ResourceFacts.
Import Go Resource Vocabulary.

Lemma ResourceType_eqb_eq a b : ResourceType_eqb a b = true <-> a = b.
Proof.
  destruct a, b; simpl; split; intros H; try discriminate; try reflexivity.
  - apply Nat.eqb_eq in H. congruence.
  - inversion H. apply Nat.eqb_refl.
Qed.

Lemma ResourceType_eqb_neq a b : ResourceType_eqb a b = false <-> a <> b.
Proof.
  rewrite <- ResourceType_eqb_eq. destruct (ResourceType_eqb a b); split; congruence.
Qed.

(** C6. [Meta.Validate] checks, in this order: the name is not empty; the
    type is not unknown, and is recognized; the path is not empty; and, for
    a file, the path holds no "/".  It returns the error of the first check
    that fails and nil when all pass.  The three descriptors of the
    specification follow, built directly and parsed by [ParseMeta]. *)
Theorem Validate_checks_in_order (meta : Meta) :
  (Name meta = "" -> Validate meta = Some MissingName)
  /\ (Name meta <> "" -> Type_ meta = TypeUnknown ->
      Validate meta = Some MissingType)
  /\ (Name meta <> "" -> Type_ meta <> TypeUnknown ->
      forall err, Type_Validate (Type_ meta) = Some err ->
                  Validate meta = Some (InvalidType (Type_ meta) err))
  /\ (Name meta <> "" -> Type_ meta <> TypeUnknown ->
      Type_Validate (Type_ meta) = None -> Path meta = "" ->
      Validate meta = Some MissingFilename)
  /\ (Name meta <> "" -> Type_ meta <> TypeUnknown ->
      Type_Validate (Type_ meta) = None -> Path meta <> "" ->
      Type_ meta = TypeFile -> Contains (Path meta) "/" = true ->
      Validate meta = Some (FilenameHasSlash (Path meta)))
  /\ (Name meta <> "" -> Type_ meta <> TypeUnknown ->
      Type_Validate (Type_ meta) = None -> Path meta <> "" ->
      (Type_ meta = TypeFile -> Contains (Path meta) "/" = false) ->
      Validate meta = None)
  /\ (forall comment,
         Validate {| Name := ""; Type_ := TypeFile; Path := "x"; Comment := comment |}
         = Some MissingName
         /\ Validate {| Name := "eggs"; Type_ := TypeFile; Path := "a/b";
                        Comment := comment |}
            = Some (FilenameHasSlash "a/b")
         /\ Validate {| Name := "eggs"; Type_ := TypeFile; Path := "eggs.tgz";
                        Comment := comment |}
            = None)
  /\ option_map Validate
       (ParseMeta "" (VMapS [("type", VStr "file"); ("filename", VStr "x")]))
     = Some (Some MissingName)
  /\ option_map Validate
       (ParseMeta "eggs" (VMapS [("type", VStr "file"); ("filename", VStr "a/b")]))
     = Some (Some (FilenameHasSlash "a/b"))
  /\ option_map Validate
       (ParseMeta "eggs" (VMapS [("type", VStr "file"); ("filename", VStr "eggs.tgz")]))
     = Some None.
Proof.
  unfold Validate.
  split; [intros ->; reflexivity|].
  split.
  { intros Hn Ht. apply String.eqb_neq in Hn. rewrite Hn, Ht. reflexivity. }
  split.
  { intros Hn Ht err He. apply String.eqb_neq in Hn.
    apply ResourceType_eqb_neq in Ht. now rewrite Hn, Ht, He. }
  split.
  { intros Hn Ht He Hp. apply String.eqb_neq in Hn.
    apply ResourceType_eqb_neq in Ht. now rewrite Hn, Ht, He, Hp. }
  split.
  { intros Hn Ht He Hp Hf Hc. apply String.eqb_neq in Hn, Hp.
    apply ResourceType_eqb_neq in Ht. rewrite Hn, Ht, He, Hp, Hc.
    rewrite Hf. reflexivity. }
  split.
  { intros Hn Ht He Hp Hc. apply String.eqb_neq in Hn, Hp.
    apply ResourceType_eqb_neq in Ht. rewrite Hn, Ht, He, Hp.
    destruct (ResourceType_eqb (Type_ meta) TypeFile) eqn:Hf; [|reflexivity].
    apply ResourceType_eqb_eq in Hf. now rewrite (Hc Hf). }
  repeat split.
Qed.

Lemma Validate_checks_in_order_witness :
  Validate {| Name := "eggs"; Type_ := TypeUnrecognized 7; Path := "eggs.tgz";
              Comment := "" |}
  = Some (InvalidType (TypeUnrecognized 7) UnknownType).
Proof.
  destruct (Validate_checks_in_order
              {| Name := "eggs"; Type_ := TypeUnrecognized 7; Path := "eggs.tgz";
                 Comment := "" |}) as (_ & _ & H & _).
  apply H; [discriminate | discriminate | reflexivity].
Defined.

Lemma ParseType_failure val :
  snd (ParseType val) <> None -> fst (ParseType val) = TypeUnknown.
Proof.
  unfold ParseType. destruct (String.eqb val "file"); simpl; congruence.
Qed.

(** C9. With nil data [ParseMeta] returns a [Meta] that has the given name
    and the zero value in every other field.  With a string-keyed map,
    whenever it returns: a key among [type], [filename], [comment] that is
    absent leaves its field at the zero value, a [filename] or [comment]
    string is copied into [Path] or [Comment], and a [type] string is parsed,
    the type staying unknown when parsing fails.  It does return when each
    of the three fields is absent, nil or a string. *)
Theorem ParseMeta_fields (name : string) :
  ParseMeta name VNil
  = Some {| Name := name; Type_ := TypeUnknown; Path := ""; Comment := "" |}
  /\ (forall rMap meta,
         ParseMeta name (VMapS rMap) = Some meta ->
         Name meta = name
         /\ (map_get "type" rMap = None -> Type_ meta = TypeUnknown)
         /\ (map_get "filename" rMap = None -> Path meta = "")
         /\ (map_get "comment" rMap = None -> Comment meta = "")
         /\ (forall val, map_get "filename" rMap = Some (VStr val) -> Path meta = val)
         /\ (forall val, map_get "comment" rMap = Some (VStr val) -> Comment meta = val)
         /\ (forall val, map_get "type" rMap = Some (VStr val) ->
                         Type_ meta = fst (ParseType val)
                         /\ (snd (ParseType val) <> None -> Type_ meta = TypeUnknown)))
  /\ (forall rMap,
         readable rMap "type" -> readable rMap "filename" -> readable rMap "comment" ->
         exists meta, ParseMeta name (VMapS rMap) = Some meta).
Proof.
  split; [reflexivity|]. split.
  - intros rMap meta H. unfold ParseMeta, map_index in H.
    destruct (map_get "type" rMap) as [[[| | | |t]| | |]|] eqn:Ht;
      cbn in H; try discriminate;
      destruct (map_get "filename" rMap) as [[[| | | |f]| | |]|] eqn:Hf;
      cbn in H; try discriminate;
      destruct (map_get "comment" rMap) as [[[| | | |c]| | |]|] eqn:Hc;
      cbn in H; try discriminate;
      inversion H; subst; cbn;
      (split; [reflexivity|]);
      (split; [intros; congruence|]);
      (split; [intros; congruence|]);
      (split; [intros; congruence|]);
      (split; [intros; congruence|]);
      (split; [intros; congruence|]);
      intros val Hval; try discriminate;
      inversion Hval; subst; (split; [reflexivity | apply ParseType_failure]).
  - intros rMap Ht Hf Hc. unfold ParseMeta, map_index.
    destruct Ht as [Ht|[Ht|[t Ht]]], Hf as [Hf|[Hf|[f Hf]]], Hc as [Hc|[Hc|[c Hc]]];
      rewrite Ht, Hf, Hc; cbn; eauto.
Qed.

Lemma ParseMeta_fields_witness :
  exists meta,
    ParseMeta "eggs" (VMapS [("type", VStr "directory"); ("comment", VStr "One egg")])
    = Some meta
    /\ Type_ meta = TypeUnknown /\ Path meta = "" /\ Comment meta = "One egg".
Proof.
  destruct (ParseMeta_fields "eggs") as (_ & Hfields & Hreturns).
  destruct (Hreturns [("type", VStr "directory"); ("comment", VStr "One egg")])
    as [meta Hmeta].
  - right. right. exists "directory". reflexivity.
  - left. reflexivity.
  - right. right. exists "One egg". reflexivity.
  - destruct (Hfields _ _ Hmeta) as (_ & _ & Hpath & _ & _ & Hcomment & Htype).
    exists meta. split; [exact Hmeta|]. split; [|split].
    + apply (Htype "directory" eq_refl). discriminate.
    + apply Hpath. reflexivity.
    + apply Hcomment. reflexivity.
Defined.

End ResourceFacts.

(** ** More on [cleanse]: what it returns and what it fails with *)

Module CleanseInvariants.
Import Go Regexp Charm Vocabulary MapFacts CleanseFacts ActionsFacts.

Lemma NoDup_distinct (l : list string) : NoDup l -> distinct String.eqb l = true.
Proof.
  induction 1 as [|x l Hnotin Hnd IH]; simpl; [reflexivity|].
  rewrite IH, andb_true_r. apply negb_true_iff. apply not_true_iff_false.
  intros Hex. apply existsb_exists in Hex as (y & Hin & Heq).
  apply String.eqb_eq in Heq. subst. contradiction.
Qed.

Lemma canonical_VMapS m :
  canonical (VMapS m) = true <->
  NoDup (map fst m)
  /\ forall k x, In (k, x) m -> prohibitedSchemaKeys k = false /\ canonical x = true.
Proof.
  unfold canonical. cbn [well_formed string_keyed has_reserved_key]. split.
  - intros H. apply andb_prop in H as [H Hres]. apply andb_prop in H as [Hwf Hsk].
    apply andb_prop in Hwf as [Hd Hwf]. apply negb_true_iff in Hres.
    rewrite forallb_forall in Hwf, Hsk. split; [now apply distinct_strings|].
    intros k x Hin. pose proof (existsb_false _ _ Hres _ Hin) as Hkx.
    cbn [fst snd] in Hkx. apply orb_false_iff in Hkx as [Hk Hx].
    split; [assumption|].
    pose proof (Hwf _ Hin) as Hw. pose proof (Hsk _ Hin) as Hs.
    cbn [snd] in Hw, Hs. now rewrite Hw, Hs, Hx.
  - intros [Hnd H].
    assert (Hall : forall kv, In kv m ->
               prohibitedSchemaKeys (fst kv) = false /\ canonical (snd kv) = true).
    { intros [k x] Hin. now apply H. }
    assert (Hparts : forall kv, In kv m ->
               well_formed (snd kv) = true /\ string_keyed (snd kv) = true
               /\ has_reserved_key (snd kv) = false).
    { intros kv Hin. destruct (Hall kv Hin) as [_ Hc]. unfold canonical in Hc.
      apply andb_prop in Hc as [Hc Hr]. apply andb_prop in Hc as [Hw Hs].
      apply negb_true_iff in Hr. auto. }
    rewrite (NoDup_distinct _ Hnd).
    replace (forallb (fun kv => well_formed (snd kv)) m) with true
      by (symmetry; apply forallb_forall; intros kv Hin; apply (Hparts kv Hin)).
    replace (forallb (fun kv => string_keyed (snd kv)) m) with true
      by (symmetry; apply forallb_forall; intros kv Hin; apply (Hparts kv Hin)).
    cbn [andb]. apply negb_true_iff. apply not_true_iff_false. intros Hex.
    apply existsb_exists in Hex as (kv & Hin & Hkv).
    destruct (Hall kv Hin) as [Hk _]. destruct (Hparts kv Hin) as (_ & _ & Hr).
    rewrite Hk, Hr in Hkv. discriminate.
Qed.

Lemma canonical_VSlice l :
  canonical (VSlice l) = true <-> forall x, In x l -> canonical x = true.
Proof.
  unfold canonical. cbn [well_formed string_keyed has_reserved_key]. split.
  - intros H x Hin. apply andb_prop in H as [H Hres]. apply andb_prop in H as [Hwf Hsk].
    apply negb_true_iff in Hres. rewrite forallb_forall in Hwf, Hsk.
    rewrite (Hwf _ Hin), (Hsk _ Hin), (existsb_false _ _ Hres _ Hin). reflexivity.
  - intros H.
    assert (Hparts : forall x, In x l ->
               well_formed x = true /\ string_keyed x = true
               /\ has_reserved_key x = false).
    { intros x Hin. specialize (H x Hin).
      apply andb_prop in H as [Hc Hr]. apply andb_prop in Hc as [Hw Hs].
      apply negb_true_iff in Hr. auto. }
    replace (forallb well_formed l) with true
      by (symmetry; apply forallb_forall; intros x Hin; apply (Hparts x Hin)).
    replace (forallb string_keyed l) with true
      by (symmetry; apply forallb_forall; intros x Hin; apply (Hparts x Hin)).
    cbn [andb]. apply negb_true_iff. apply not_true_iff_false. intros Hex.
    apply existsb_exists in Hex as (x & Hin & Hx).
    destruct (Hparts x Hin) as (_ & _ & Hr). congruence.
Qed.

Lemma map_set_keys {V} k (v : V) m :
  forall k', In k' (map fst (map_set k v m)) <-> k' = k \/ In k' (map fst m).
Proof.
  induction m as [|[k0 v0] m IH]; simpl; intros k'.
  - split; intros [H|[]]; auto.
  - destruct (String.eqb k k0) eqn:E; simpl.
    + apply String.eqb_eq in E. subst. intuition auto.
    + rewrite IH. intuition auto.
Qed.

Lemma map_set_NoDup {V} k (v : V) m :
  NoDup (map fst m) -> NoDup (map fst (map_set k v m)).
Proof.
  induction m as [|[k0 v0] m IH]; simpl; intros H.
  - constructor; [intros [] | constructor].
  - inversion H as [|? ? Hnotin Hnd]; subst.
    destruct (String.eqb k k0) eqn:E; simpl.
    + apply String.eqb_eq in E. subst. now constructor.
    + constructor; [|auto]. rewrite map_set_keys. intros [->|Hin]; [|contradiction].
      now rewrite String.eqb_refl in E.
Qed.

Lemma canonical_map_set k x acc :
  prohibitedSchemaKeys k = false -> canonical x = true ->
  canonical (VMapS acc) = true -> canonical (VMapS (map_set k x acc)) = true.
Proof.
  rewrite !canonical_VMapS. intros Hk Hx [Hnd Hacc]. split.
  - now apply map_set_NoDup.
  - intros k' x' Hin. apply map_set_In in Hin as [Heq|Hin]; [|auto].
    inversion Heq; subst. auto.
Qed.

Lemma cleanse_map_canonical (f : iface -> result iface) m :
  forall acc y,
    (forall k x x', In (k, x) m -> f x = Ok x' -> canonical x' = true) ->
    canonical (VMapS acc) = true ->
    cleanse_map m (fun _ v _ => f v) acc = Ok y -> canonical y = true.
Proof.
  induction m as [|[k x] m IH]; simpl; intros acc y Hf Hacc H.
  - inversion H; subst. exact Hacc.
  - destruct (prohibitedSchemaKeys k) eqn:Ek; [discriminate|].
    destruct (f x) as [x'|e] eqn:Ex; [|discriminate].
    apply (IH _ _ (fun k0 x0 x0' Hin => Hf k0 x0 x0' (or_intror Hin))) in H; auto.
    apply canonical_map_set; eauto.
Qed.

Lemma cleanse_slice_canonical (f : iface -> result iface) l :
  forall acc y,
    (forall x x', In x l -> f x = Ok x' -> canonical x' = true) ->
    canonical (VSlice acc) = true ->
    cleanse_slice l (fun v _ => f v) acc = Ok y -> canonical y = true.
Proof.
  induction l as [|x l IH]; simpl; intros acc y Hf Hacc H.
  - inversion H; subst. exact Hacc.
  - destruct (f x) as [x'|e] eqn:Ex; [|discriminate].
    apply (IH _ _ (fun x0 x0' Hin => Hf x0 x0' (or_intror Hin))) in H; auto.
    rewrite canonical_VSlice in *. intros z Hz.
    apply in_app_or in Hz as [Hz|[<-|[]]]; eauto.
Qed.

(** Whatever [cleanse] returns is canonical. *)
Lemma cleanse_canonical v : forall y, cleanse v = Ok y -> canonical y = true.
Proof.
  induction v as [c|l IH|m IH|m IH] using iface_nested_ind; intros y H.
  - rewrite cleanse_scalar in H. inversion H; subst. reflexivity.
  - rewrite cleanse_VSlice in H. rewrite Forall_forall in IH.
    apply (cleanse_slice_canonical cleanse l [] y); [|reflexivity|exact H].
    intros x x' Hin. apply (IH _ Hin).
  - rewrite cleanse_VMapS in H. rewrite Forall_forall in IH.
    apply (cleanse_map_canonical cleanse m [] y); [|reflexivity|exact H].
    intros k x x' Hin. apply (IH _ Hin).
  - rewrite cleanse_VMapI in H. rewrite Forall_forall in IH.
    destruct (cleanse_keys m []) as [newMap|e] eqn:Hk; [|discriminate].
    rewrite cleanse_VMapS in H.
    apply (cleanse_map_canonical cleanse newMap [] y); [|reflexivity|exact H].
    intros k x x' Hin.
    destruct (cleanse_keys_In _ _ _ _ _ Hk Hin) as [[]|Hm].
    apply (IH _ Hm).
Qed.

Lemma canonical_parts v :
  canonical v = true ->
  well_formed v = true /\ string_keyed v = true /\ has_reserved_key v = false.
Proof.
  unfold canonical. intros H. apply andb_prop in H as [H Hr].
  apply andb_prop in H as [Hw Hs]. apply negb_true_iff in Hr. auto.
Qed.

Lemma cleanse_of_canonical v : canonical v = true -> cleanse v = Ok v.
Proof.
  intros H. apply canonical_parts in H as (Hwf & Hsk & Hr).
  rewrite <- (stringify_string_keyed v Hsk) at 2.
  apply canonical_not_reserved; [|assumption].
  apply cleanse_outcome. repeat split;
    auto using string_keyed_keys_are_strings, unreserved_sequences.
Qed.

(** X1. Whatever [cleanse] returns has string-keyed maps only, at every
    depth, each with pairwise distinct keys. *)
Theorem cleanse_returns_string_keyed (v y : iface) :
  cleanse v = Ok y -> string_keyed y = true /\ well_formed y = true.
Proof.
  intros H. apply cleanse_canonical in H.
  apply canonical_parts in H as (Hwf & Hsk & _). split; assumption.
Qed.

Lemma cleanse_returns_string_keyed_witness :
  string_keyed (VMapS [("a", VMapS [("b", VSlice [VMapS [("c", VInt 1)]])])]) = true
  /\ well_formed (VMapS [("a", VMapS [("b", VSlice [VMapS [("c", VInt 1)]])])]) = true.
Proof.
  apply (cleanse_returns_string_keyed
           (VMapI [(SStr "a", VMapI [(SStr "b", VSlice [VMapI [(SStr "c", VInt 1)]])])])).
  reflexivity.
Defined.

(** X2. Whatever [cleanse] returns holds neither [$ref] nor [$schema] as a
    key, at any depth. *)
Theorem cleanse_returns_no_reserved_key (v y : iface) :
  cleanse v = Ok y -> has_key "$ref" y = false /\ has_key "$schema" y = false.
Proof.
  intros H. apply cleanse_canonical in H.
  apply canonical_parts in H as (_ & _ & Hr).
  rewrite has_reserved_key_keys in Hr. now apply orb_false_iff in Hr.
Qed.

Lemma cleanse_returns_no_reserved_key_witness :
  has_key "$ref" (VMapS [("ref", VSlice [VStr "$ref"])]) = false
  /\ has_key "$schema" (VMapS [("ref", VSlice [VStr "$ref"])]) = false.
Proof.
  apply (cleanse_returns_no_reserved_key (VMapI [(SStr "ref", VSlice [VStr "$ref"])])).
  reflexivity.
Defined.

(** X3. [cleanse] is idempotent: cleansing what it returned returns the
    same tree again. *)
Theorem cleanse_idempotent (v y : iface) :
  cleanse v = Ok y -> cleanse y = Ok y.
Proof.
  intros H. apply cleanse_of_canonical. now apply (cleanse_canonical v).
Qed.

Lemma cleanse_idempotent_witness :
  cleanse (VMapS [("a", VSlice [VMapS [("b", VNil)]])])
  = Ok (VMapS [("a", VSlice [VMapS [("b", VNil)]])]).
Proof.
  apply (cleanse_idempotent (VMapI [(SStr "a", VSlice [VMapI [(SStr "b", VNil)]])])).
  reflexivity.
Defined.

(** *** The errors, and where they come from *)

Lemma cleanse_map_prohibited (f : iface -> result iface) m :
  forall acc key,
    cleanse_map m (fun _ v _ => f v) acc = Err (ErrProhibitedKey key) ->
    (prohibitedSchemaKeys key = true /\ In key (map fst m))
    \/ (exists k x, In (k, x) m /\ f x = Err (ErrProhibitedKey key)).
Proof.
  induction m as [|[k x] m IH]; simpl; intros acc key H; [discriminate|].
  destruct (prohibitedSchemaKeys k) eqn:Ek.
  - inversion H; subst. left. auto.
  - destruct (f x) as [x'|e] eqn:Ex.
    + destruct (IH _ _ H) as [[Hp Hin]|(k' & x0 & Hin & Hf)].
      * left. auto.
      * right. exists k', x0. auto.
    + inversion H; subst. right. exists k, x. auto.
Qed.

Lemma has_key_VMapS_key key m : In key (map fst m) -> has_key key (VMapS m) = true.
Proof.
  intros Hin. apply in_map_iff in Hin as ([k x] & Heq & Hin). simpl in Heq. subst.
  cbn [has_key]. apply existsb_exists. exists (key, x). split; [assumption|].
  cbn [fst]. now rewrite String.eqb_refl.
Qed.

Lemma has_key_VMapS_value key k x m :
  In (k, x) m -> has_key key x = true -> has_key key (VMapS m) = true.
Proof.
  intros Hin Hx. cbn [has_key]. apply existsb_exists. exists (k, x).
  split; [assumption|]. cbn [snd]. rewrite Hx. apply orb_true_r.
Qed.

Lemma has_key_VMapI_key key x m :
  In (SStr key, x) m -> has_key key (VMapI m) = true.
Proof.
  intros Hin. cbn [has_key]. apply existsb_exists. exists (SStr key, x).
  split; [assumption|]. cbn [fst scalar_eqb]. now rewrite String.eqb_refl.
Qed.

Lemma has_key_VMapI_value key c x m :
  In (c, x) m -> has_key key x = true -> has_key key (VMapI m) = true.
Proof.
  intros Hin Hx. cbn [has_key]. apply existsb_exists. exists (c, x).
  split; [assumption|]. cbn [snd]. rewrite Hx. apply orb_true_r.
Qed.

(** A reserved-key error names a reserved key that the tree holds. *)
Lemma cleanse_prohibited_sound v :
  forall key,
    cleanse v = Err (ErrProhibitedKey key) ->
    prohibitedSchemaKeys key = true /\ has_key key v = true.
Proof.
  induction v as [c|l IH|m IH|m IH] using iface_nested_ind; intros key H.
  - rewrite cleanse_scalar in H. discriminate.
  - rewrite cleanse_VSlice in H.
    apply cleanse_slice_error_kinds in H. discriminate.
  - rewrite cleanse_VMapS in H. rewrite Forall_forall in IH.
    destruct (cleanse_map_prohibited _ _ _ _ H) as [[Hp Hin]|(k & x & Hin & Hf)].
    + split; [assumption | now apply has_key_VMapS_key].
    + destruct (IH _ Hin _ Hf) as [Hp Hx]. split; [assumption|].
      now apply (has_key_VMapS_value key k x).
  - rewrite cleanse_VMapI in H. rewrite Forall_forall in IH.
    destruct (cleanse_keys m []) as [newMap|e] eqn:Hk.
    + rewrite cleanse_VMapS in H.
      destruct (cleanse_map_prohibited _ _ _ _ H) as [[Hp Hin]|(k & x & Hin & Hf)].
      * split; [assumption|].
        apply in_map_iff in Hin as ([k x] & Heq & Hin). simpl in Heq. subst k.
        destruct (cleanse_keys_In _ _ _ _ _ Hk Hin) as [[]|Hm].
        now apply (has_key_VMapI_key key x).
      * destruct (cleanse_keys_In _ _ _ _ _ Hk Hin) as [[]|Hm].
        destruct (IH _ Hm _ Hf) as [Hp Hx]. split; [assumption|].
        now apply (has_key_VMapI_value key (SStr k) x).
    + inversion H; subst. apply cleanse_keys_error in Hk. discriminate.
Qed.

(** X4. [cleanse] fails with one of two errors only: "map keyed with
    non-string value", or the reserved-key error; the latter names [$ref] or
    [$schema], and the tree does hold the key it names. *)
Theorem cleanse_errors (v : iface) (e : error) :
  cleanse v = Err e ->
  e = ErrNonStringKey
  \/ exists key,
      e = ErrProhibitedKey key /\ (key = "$ref" \/ key = "$schema")
      /\ has_key key v = true.
Proof.
  intros H. destruct (cleanse_error_kinds v e H) as [->|(key & Hp & ->)].
  - now left.
  - right. exists key. destruct (cleanse_prohibited_sound v key H) as [_ Hk].
    split; [reflexivity|]. split; [now apply prohibited_keys | assumption].
Qed.

Lemma cleanse_errors_witness :
  ErrProhibitedKey "$schema" = ErrNonStringKey
  \/ exists key,
      ErrProhibitedKey "$schema" = ErrProhibitedKey key
      /\ (key = "$ref" \/ key = "$schema")
      /\ has_key key (VMapS [("a", VMapI [(SStr "$schema", VNil)])]) = true.
Proof.
  apply (cleanse_errors (VMapS [("a", VMapI [(SStr "$schema", VNil)])])).
  reflexivity.
Defined.

(** *** Exactly which trees are accepted *)

Lemma forallb_false {A} (f : A -> bool) l :
  forallb f l = false -> exists x, In x l /\ f x = false.
Proof.
  induction l as [|x l IH]; simpl; [discriminate|].
  destruct (f x) eqn:E; simpl; intros H.
  - destruct (IH H) as (y & Hin & Hy). exists y. auto.
  - exists x. auto.
Qed.

Lemma cleanse_rejects_non_string v :
  well_formed v = true -> keys_are_strings v = false ->
  exists err, cleanse v = Err err.
Proof.
  induction v as [c|l IH|m IH|m IH] using iface_nested_ind;
    cbn [well_formed keys_are_strings]; intros Hwf Hks.
  - discriminate.
  - rewrite Forall_forall in IH. rewrite forallb_forall in Hwf.
    apply forallb_false in Hks as (x & Hin & Hx).
    exists ErrNonStringKey. rewrite cleanse_VSlice. apply cleanse_slice_err.
    exists x. auto.
  - rewrite Forall_forall in IH. apply andb_prop in Hwf as [_ Hwf].
    rewrite forallb_forall in Hwf.
    apply forallb_false in Hks as ([k x] & Hin & Hx). cbn [snd] in Hx.
    rewrite cleanse_VMapS. apply cleanse_map_err. exists k, x.
    split; [assumption|]. right. apply (IH _ Hin); [apply (Hwf _ Hin) | assumption].
  - rewrite Forall_forall in IH. apply andb_prop in Hwf as [Hd Hwf].
    rewrite forallb_forall in Hwf.
    rewrite cleanse_VMapI, cleanse_keys_result by assumption.
    destruct (forallb (fun kv => is_string (fst kv)) m) eqn:Hstr; [|eauto].
    apply forallb_false in Hks as ([c x] & Hin & Hx). cbn [fst snd] in Hx.
    rewrite forallb_forall in Hstr. pose proof (Hstr _ Hin) as Hc. cbn [fst] in Hc.
    rewrite Hc in Hx. cbn [andb] in Hx.
    destruct c as [| | | |k]; try discriminate.
    rewrite cleanse_VMapS. apply cleanse_map_err. exists k, x.
    split; [now apply entries_In_conv|]. right.
    apply (IH _ Hin); [apply (Hwf _ Hin) | assumption].
Qed.

(** X5. On a Go value (pairwise distinct keys in each map) [cleanse]
    succeeds exactly when every mapping key of the tree is a string and none
    is [$ref] or [$schema]; what it then returns is the same tree with each
    interface-keyed map turned into a string-keyed one. *)
Theorem cleanse_accepts_exactly (v : iface) :
  well_formed v = true ->
  ((exists y, cleanse v = Ok y) <->
   keys_are_strings v = true /\ has_key "$ref" v = false /\ has_key "$schema" v = false)
  /\ (forall y, cleanse v = Ok y -> y = stringify v).
Proof.
  intros Hwf.
  assert (Hok : keys_are_strings v = true -> has_reserved_key v = false ->
                cleanse v = Ok (stringify v)).
  { intros Hks Hr. apply canonical_not_reserved; [|assumption].
    apply cleanse_outcome. repeat split; auto using unreserved_sequences. }
  assert (Hconv : forall y, cleanse v = Ok y ->
                    keys_are_strings v = true /\ has_reserved_key v = false).
  { intros y Hy. split.
    - destruct (keys_are_strings v) eqn:Hks; [reflexivity|].
      destruct (cleanse_rejects_non_string v Hwf Hks) as [err Herr]. congruence.
    - destruct (has_reserved_key v) eqn:Hr; [|reflexivity].
      destruct (cleanse_rejects_reserved v Hwf Hr) as [err Herr]. congruence. }
  split; [split|].
  - intros [y Hy]. destruct (Hconv y Hy) as [Hks Hr].
    rewrite has_reserved_key_keys in Hr. apply orb_false_iff in Hr. tauto.
  - intros (Hks & Href & Hschema). exists (stringify v). apply Hok; [assumption|].
    now rewrite has_reserved_key_keys, Href, Hschema.
  - intros y Hy. destruct (Hconv y Hy) as [Hks Hr].
    rewrite (Hok Hks Hr) in Hy. congruence.
Qed.

Lemma cleanse_accepts_exactly_witness :
  VMapS [("outfile", VMapS [("type", VStr "string")])]
  = stringify (VMapI [(SStr "outfile", VMapI [(SStr "type", VStr "string")])]).
Proof.
  destruct (cleanse_accepts_exactly
              (VMapI [(SStr "outfile", VMapI [(SStr "type", VStr "string")])])
              eq_refl) as [_ H].
  apply H. reflexivity.
Defined.

(** X6. A Go value that holds a mapping key which is not a string is
    refused; when it holds no reserved key the error is "map keyed with
    non-string value". *)
Theorem cleanse_non_string_key (v : iface) :
  well_formed v = true ->
  keys_are_strings v = false ->
  exists err,
    cleanse v = Err err
    /\ (has_key "$ref" v = false -> has_key "$schema" v = false ->
        err = ErrNonStringKey).
Proof.
  intros Hwf Hks. destruct (cleanse_rejects_non_string v Hwf Hks) as [err Herr].
  exists err. split; [assumption|]. intros Href Hschema.
  destruct (cleanse_error_kinds v err Herr) as [->|(key & Hp & ->)]; [reflexivity|].
  destruct (cleanse_prohibited_sound v key Herr) as [_ Hk].
  destruct (prohibited_keys key Hp) as [-> | ->]; congruence.
Qed.

Lemma cleanse_non_string_key_witness :
  exists err,
    cleanse (VMapS [("a", VSlice [VMapI [(SBool true, VNil)]])]) = Err err
    /\ err = ErrNonStringKey.
Proof.
  destruct (cleanse_non_string_key
              (VMapS [("a", VSlice [VMapI [(SBool true, VNil)]])]) eq_refl eq_refl)
    as (err & Herr & Hkind).
  exists err. split; [exact Herr | apply Hkind; reflexivity].
Defined.

(** *** Sequences and maps, element by element *)

Lemma cleanse_slice_elements (f : iface -> result iface) l :
  forall acc y,
    cleanse_slice l (fun v _ => f v) acc = Ok y ->
    exists ys, y = VSlice (acc ++ ys)%list /\ Forall2 (fun x x' => f x = Ok x') l ys.
Proof.
  induction l as [|x l IH]; simpl; intros acc y H.
  - inversion H; subst. exists []. rewrite app_nil_r. split; [reflexivity | constructor].
  - destruct (f x) as [x'|e] eqn:Ex; [|discriminate].
    destruct (IH _ _ H) as (ys & -> & Hys). exists (x' :: ys).
    rewrite <- app_assoc. split; [reflexivity | now constructor].
Qed.

Lemma cleanse_slice_all (f : iface -> result iface) l :
  forall acc ys,
    Forall2 (fun x x' => f x = Ok x') l ys ->
    cleanse_slice l (fun v _ => f v) acc = Ok (VSlice (acc ++ ys)%list).
Proof.
  induction l as [|x l IH]; intros acc ys H; inversion H; subst; simpl.
  - now rewrite app_nil_r.
  - match goal with Hx : f x = Ok _ |- _ => rewrite Hx end.
    rewrite IH with (ys := l'); [|assumption]. now rewrite <- app_assoc.
Qed.

Lemma cleanse_slice_culprit (f : iface -> result iface) l :
  forall acc e,
    cleanse_slice l (fun v _ => f v) acc = Err e ->
    exists x e', In x l /\ f x = Err e'.
Proof.
  induction l as [|x l IH]; simpl; intros acc e H; [discriminate|].
  destruct (f x) as [x'|e'] eqn:Ex.
  - destruct (IH _ _ H) as (z & ez & Hin & Hz). exists z, ez. auto.
  - exists x, e'. auto.
Qed.

(** X7. On a sequence [cleanse] works element by element and keeps the
    order: it returns the sequence of the cleansed elements when each of
    them is accepted, and fails when one is refused; the failure is always
    "map keyed with non-string value", whatever the element's own error. *)
Theorem cleanse_sequence (l : list iface) :
  (forall ys, Forall2 (fun x x' => cleanse x = Ok x') l ys ->
              cleanse (VSlice l) = Ok (VSlice ys))
  /\ (forall y, cleanse (VSlice l) = Ok y ->
                exists ys, y = VSlice ys /\ Forall2 (fun x x' => cleanse x = Ok x') l ys)
  /\ (forall x e, In x l -> cleanse x = Err e ->
                  cleanse (VSlice l) = Err ErrNonStringKey)
  /\ (forall e, cleanse (VSlice l) = Err e ->
                e = ErrNonStringKey /\ exists x e', In x l /\ cleanse x = Err e').
Proof.
  rewrite cleanse_VSlice. split; [|split; [|split]].
  - intros ys H. now rewrite (cleanse_slice_all cleanse l [] ys H).
  - intros y H. destruct (cleanse_slice_elements cleanse l [] y H) as (ys & -> & Hys).
    exists ys. auto.
  - intros x e Hin He. apply cleanse_slice_err. exists x. eauto.
  - intros e H. split.
    + now apply (cleanse_slice_error_kinds cleanse l [] e).
    + now apply (cleanse_slice_culprit cleanse l [] e).
Qed.

Lemma cleanse_sequence_witness :
  cleanse (VSlice [VInt 1; VMapS [("$ref", VStr "x")]; VNil]) = Err ErrNonStringKey.
Proof.
  destruct (cleanse_sequence [VInt 1; VMapS [("$ref", VStr "x")]; VNil])
    as (_ & _ & H & _).
  apply (H (VMapS [("$ref", VStr "x")]) (ErrProhibitedKey "$ref")).
  - right. left. reflexivity.
  - reflexivity.
Defined.

Lemma cleanse_map_entries (f : iface -> result iface) m :
  forall acc y,
    NoDup (map fst acc ++ map fst m)%list ->
    cleanse_map m (fun _ v _ => f v) acc = Ok y ->
    exists m',
      y = VMapS (acc ++ m')%list
      /\ Forall2 (fun kv kv' => fst kv' = fst kv
                                /\ prohibitedSchemaKeys (fst kv) = false
                                /\ f (snd kv) = Ok (snd kv')) m m'.
Proof.
  induction m as [|[k x] m IH]; simpl; intros acc y Hnd H.
  - inversion H; subst. exists []. rewrite app_nil_r. split; [reflexivity | constructor].
  - destruct (prohibitedSchemaKeys k) eqn:Ek; [discriminate|].
    destruct (f x) as [x'|e] eqn:Ex; [|discriminate].
    assert (Hk : ~ In k (map fst acc)).
    { apply NoDup_remove_2 in Hnd. intros Hin. apply Hnd. apply in_or_app. now left. }
    rewrite (map_set_fresh _ _ _ Hk) in H.
    assert (Hnd' : NoDup (map fst (acc ++ [(k, x')]) ++ map fst m)%list).
    { rewrite map_app. simpl. rewrite <- app_assoc. exact Hnd. }
    destruct (IH _ _ Hnd' H) as (m' & -> & Hm').
    exists ((k, x') :: m'). rewrite <- app_assoc. split; [reflexivity|].
    constructor; [cbn; auto | assumption].
Qed.

(** X8. On a string-keyed map with pairwise distinct keys, what [cleanse]
    returns has the same keys in the same order, none of them reserved, and
    under each key the cleansed value. *)
Theorem cleanse_map_pointwise (m : smap) (y : iface) :
  distinct String.eqb (map fst m) = true ->
  cleanse (VMapS m) = Ok y ->
  exists m',
    y = VMapS m'
    /\ map fst m' = map fst m
    /\ Forall2 (fun kv kv' => prohibitedSchemaKeys (fst kv) = false
                              /\ cleanse (snd kv) = Ok (snd kv')) m m'.
Proof.
  intros Hd H. rewrite cleanse_VMapS in H.
  destruct (cleanse_map_entries cleanse m [] y) as (m' & -> & Hm').
  - simpl. now apply distinct_strings.
  - exact H.
  - exists m'. split; [reflexivity|].
    clear -Hm'. induction Hm' as [|kv kv' m m' (Hk & Hp & Hc) _ [IHk IHv]].
    + split; [reflexivity | constructor].
    + split; [simpl; now rewrite Hk, IHk | constructor; auto].
Qed.

Lemma cleanse_map_pointwise_witness :
  exists m',
    VMapS [("b", VMapS [("x", VNil)]); ("a", VInt 1)] = VMapS m'
    /\ map fst m' = ["b"; "a"]
    /\ Forall2 (fun kv kv' => prohibitedSchemaKeys (fst kv) = false
                              /\ cleanse (snd kv) = Ok (snd kv'))
               [("b", VMapI [(SStr "x", VNil)]); ("a", VInt 1)] m'.
Proof.
  apply (cleanse_map_pointwise [("b", VMapI [(SStr "x", VNil)]); ("a", VInt 1)]);
    reflexivity.
Defined.

End CleanseInvariants.

(** ** More on [recurseMapOnKeys]: paths *)

Module LookupPaths.
Import Go Regexp Charm Vocabulary MapFacts CleanseFacts LookupFacts CleanseInvariants.

(** X9. When [recurseMapOnKeys] reports that nothing was found, the value
    it returns is nil. *)
Theorem recurseMapOnKeys_not_found (keys : list string) (params : smap) (v : iface) :
  recurseMapOnKeys keys params = Some (v, false) -> v = VNil.
Proof.
  revert params. induction keys as [|key rest IH]; intros params H; [discriminate|].
  cbn [recurseMapOnKeys] in H. unfold map_index in H.
  destruct (map_get key params) as [answer|] eqn:Hget.
  - destruct rest as [|k' rest]; [discriminate|]. cbn [negb] in H.
    destruct answer as [c|l|typed|typed]; try (inversion H; reflexivity).
    + now apply (IH typed).
    + destruct (recurse_keys typed []) as [m|]; [now apply (IH m) | now inversion H].
  - destruct rest; now inversion H.
Qed.

Lemma recurseMapOnKeys_not_found_witness : VNil = VNil.
Proof.
  apply (recurseMapOnKeys_not_found ["a"; "b"] [("a", VMapS [("c", VInt 1)])] VNil).
  reflexivity.
Defined.

(** X10. Following a path [p ++ q] is following [p] and then, from what was
    found, [q]: into a string-keyed map, or an interface-keyed one whose
    keys are all strings; from anything else, and from a miss, the answer is
    (nil, false).  So whatever is found along [p ++ q] lies under something
    found along [p]. *)
Theorem recurseMapOnKeys_app (p q : list string) (params : smap) :
  p <> [] -> q <> [] ->
  recurseMapOnKeys (p ++ q)%list params
  = match recurseMapOnKeys p params with
    | Some found => descend found q
    | None => None
    end
  /\ (forall v, recurseMapOnKeys (p ++ q)%list params = Some (v, true) ->
                exists u, recurseMapOnKeys p params = Some (u, true)).
Proof.
  intros Hp Hq.
  assert (Heq : recurseMapOnKeys (p ++ q)%list params
                = match recurseMapOnKeys p params with
                  | Some found => descend found q
                  | None => None
                  end).
  { revert params. induction p as [|key p IH]; intros params; [congruence|].
    destruct p as [|k' p].
    - destruct q as [|kq q]; [congruence|].
      cbn [app recurseMapOnKeys]. unfold descend.
      destruct (map_index params key) as [answer ok].
      destruct ok; cbn [negb]; [|now destruct answer].
      destruct answer; reflexivity.
    - change ((key :: k' :: p) ++ q)%list with (key :: ((k' :: p) ++ q))%list.
      cbn [recurseMapOnKeys]. destruct (map_index params key) as [answer ok].
      change ((k' :: p) ++ q)%list with (k' :: (p ++ q))%list at 1.
      cbv beta iota. destruct ok; cbn [negb]; [|reflexivity].
      destruct answer as [c|l|typed|typed]; try reflexivity.
      + change (k' :: (p ++ q))%list with ((k' :: p) ++ q)%list.
        apply IH. discriminate.
      + destruct (recurse_keys typed []) as [m|]; [|reflexivity].
        change (k' :: (p ++ q))%list with ((k' :: p) ++ q)%list.
        apply IH. discriminate. }
  split; [exact Heq|].
  intros v Hv. rewrite Heq in Hv.
  destruct (recurseMapOnKeys p params) as [[u ok]|]; [|discriminate].
  destruct ok; [eauto|]. destruct u; discriminate.
Qed.

Lemma recurseMapOnKeys_app_witness :
  recurseMapOnKeys (["a"; "b"] ++ ["c"])%list
    [("a", VMapS [("b", VMapI [(SStr "c", VInt 3)])])]
  = descend (VMapI [(SStr "c", VInt 3)], true) ["c"].
Proof.
  destruct (recurseMapOnKeys_app ["a"; "b"] ["c"]
              [("a", VMapS [("b", VMapI [(SStr "c", VInt 3)])])]) as [H _];
    [discriminate | discriminate |].
  exact H.
Defined.

(** *** Looking up in a cleansed tree *)

Lemma acceptable_parts v :
  acceptable v = true ->
  well_formed v = true /\ keys_are_strings v = true /\ has_reserved_key v = false.
Proof.
  unfold acceptable. intros H. apply andb_prop in H as [H Hr].
  apply andb_prop in H as [Hw Hs]. apply negb_true_iff in Hr. auto.
Qed.

Lemma acceptable_intro v :
  well_formed v = true -> keys_are_strings v = true -> has_reserved_key v = false ->
  acceptable v = true.
Proof. unfold acceptable. now intros -> -> ->. Qed.

Lemma cleanse_acceptable v : acceptable v = true -> cleanse v = Ok (stringify v).
Proof.
  intros H. apply acceptable_parts in H as (Hwf & Hks & Hr).
  apply canonical_not_reserved; [|assumption].
  apply cleanse_outcome. repeat split; auto using unreserved_sequences.
Qed.

Lemma acceptable_of_cleansed v y :
  well_formed v = true -> cleanse v = Ok y -> acceptable v = true.
Proof.
  intros Hwf Hy. apply acceptable_intro; [assumption| |].
  - destruct (keys_are_strings v) eqn:Hks; [reflexivity|].
    destruct (cleanse_rejects_non_string v Hwf Hks) as [err Herr]. congruence.
  - destruct (has_reserved_key v) eqn:Hr; [|reflexivity].
    destruct (cleanse_rejects_reserved v Hwf Hr) as [err Herr]. congruence.
Qed.

Lemma acceptable_entry m k x :
  acceptable (VMapS m) = true -> In (k, x) m -> acceptable x = true.
Proof.
  intros H Hin. apply acceptable_parts in H as (Hwf & Hks & Hr).
  cbn [well_formed keys_are_strings has_reserved_key] in *.
  apply andb_prop in Hwf as [_ Hwf]. rewrite forallb_forall in Hwf, Hks.
  pose proof (existsb_false _ _ Hr _ Hin) as Hx. cbn [fst snd] in Hx.
  apply orb_false_iff in Hx as [_ Hx].
  apply acceptable_intro; [apply (Hwf _ Hin) | apply (Hks _ Hin) | assumption].
Qed.

Lemma acceptable_VMapI typed :
  acceptable (VMapI typed) = true ->
  typed = map (fun kv => (SStr (fst kv), snd kv)) (entries typed)
  /\ NoDup (map fst (entries typed))
  /\ recurse_keys typed [] = Some (entries typed).
Proof.
  intros H. apply acceptable_parts in H as (Hwf & Hks & _).
  cbn [well_formed keys_are_strings] in *. apply andb_prop in Hwf as [Hd _].
  assert (Hstr : forallb (fun kv => is_string (fst kv)) typed = true).
  { rewrite forallb_forall in *. intros kv Hin.
    specialize (Hks kv Hin). now apply andb_prop in Hks as [? _]. }
  pose proof (entries_keys_NoDup typed (distinct_scalars _ Hd)) as Hnd.
  split; [now apply entries_all_strings|]. split; [assumption|].
  now rewrite recurse_keys_entries.
Qed.

Lemma acceptable_entries typed :
  acceptable (VMapI typed) = true -> acceptable (VMapS (entries typed)) = true.
Proof.
  intros H. destruct (acceptable_VMapI typed H) as (Hm & Hnd & _).
  apply acceptable_parts in H as (Hwf & Hks & Hr).
  rewrite Hm in Hwf, Hks, Hr.
  cbn [well_formed keys_are_strings has_reserved_key] in *.
  apply andb_prop in Hwf as [_ Hwf].
  rewrite forallb_forall in Hwf, Hks.
  apply acceptable_intro; cbn [well_formed keys_are_strings has_reserved_key].
  - rewrite (NoDup_distinct _ Hnd). cbn [andb]. apply forallb_forall.
    intros [k x] Hin. apply (Hwf (SStr k, x)).
    apply in_map_iff. exists (k, x). auto.
  - apply forallb_forall. intros [k x] Hin.
    assert (Hin' : In (SStr k, x) (map (fun kv => (SStr (fst kv), snd kv)) (entries typed))).
    { apply in_map_iff. exists (k, x). auto. }
    specialize (Hks _ Hin'). cbn [fst snd is_string andb] in Hks. exact Hks.
  - apply not_true_iff_false. intros Hex.
    apply existsb_exists in Hex as ([k x] & Hin & Hkx).
    assert (Hin' : In (SStr k, x) (map (fun kv => (SStr (fst kv), snd kv)) (entries typed))).
    { apply in_map_iff. exists (k, x). auto. }
    pose proof (existsb_false _ _ Hr _ Hin') as Hf. cbn [fst snd] in Hf, Hkx.
    congruence.
Qed.

Lemma stringify_VMapI typed :
  acceptable (VMapI typed) = true ->
  stringify (VMapI typed) = stringify (VMapS (entries typed)).
Proof.
  intros H. destruct (acceptable_VMapI typed H) as (Hm & _ & _).
  rewrite Hm at 1. cbn [stringify]. f_equal. clear.
  induction (entries typed) as [|[k x] l IHl]; [reflexivity|].
  cbn [map fold_right]. rewrite IHl. reflexivity.
Qed.

Lemma map_get_map_values (g : iface -> iface) k (m : smap) :
  map_get k (map (fun kv => (fst kv, g (snd kv))) m) = option_map g (map_get k m).
Proof.
  induction m as [|[k' x] m IH]; simpl; [reflexivity|].
  destruct (String.eqb k k'); [reflexivity | assumption].
Qed.

(** Looking up in the stringified tree finds the stringified value. *)
Lemma recurseMapOnKeys_stringify keys :
  forall params v ok,
    acceptable (VMapS params) = true ->
    recurseMapOnKeys keys params = Some (v, ok) ->
    recurseMapOnKeys keys (map (fun kv => (fst kv, stringify (snd kv))) params)
    = Some (stringify v, ok)
    /\ acceptable v = true.
Proof.
  induction keys as [|key rest IH]; intros params v ok Hacc H; [discriminate|].
  cbn [recurseMapOnKeys] in *. unfold map_index in *.
  rewrite map_get_map_values.
  destruct (map_get key params) as [answer|] eqn:Hget; cbn [option_map].
  - pose proof (acceptable_entry _ _ _ Hacc (map_get_In _ _ _ Hget)) as Hans.
    destruct rest as [|k' rest].
    + inversion H; subst. auto.
    + cbn [negb] in *.
      destruct answer as [c|l|typed|typed].
      * inversion H; subst. auto.
      * inversion H; subst. auto.
      * cbn [stringify]. now apply IH.
      * rewrite (stringify_VMapI typed Hans). cbn [stringify].
        destruct (acceptable_VMapI typed Hans) as (_ & _ & Hrk).
        rewrite Hrk in H. apply IH; [|assumption].
        now apply acceptable_entries.
  - destruct rest; inversion H; subst; auto.
Qed.

(** X11. Cleansing does not change what a path finds.  When [cleanse]
    accepts a string-keyed map (a Go value), whatever [recurseMapOnKeys]
    finds along a path in the original map, it finds along the same path in
    the cleansed map the cleansed value, with the same flag. *)
Theorem recurseMapOnKeys_after_cleanse (params : smap) (y : iface) :
  well_formed (VMapS params) = true ->
  cleanse (VMapS params) = Ok y ->
  exists cleansed,
    y = VMapS cleansed
    /\ forall keys v ok,
        recurseMapOnKeys keys params = Some (v, ok) ->
        exists v',
          cleanse v = Ok v'
          /\ recurseMapOnKeys keys cleansed = Some (v', ok).
Proof.
  intros Hwf Hy.
  pose proof (acceptable_of_cleansed _ _ Hwf Hy) as Hacc.
  rewrite (cleanse_acceptable _ Hacc) in Hy. inversion Hy; subst y.
  cbn [stringify]. eexists. split; [reflexivity|].
  intros keys v ok Hfound.
  destruct (recurseMapOnKeys_stringify keys params v ok Hacc Hfound) as [Hs Hv].
  exists (stringify v). split; [now apply cleanse_acceptable | exact Hs].
Qed.

Lemma recurseMapOnKeys_after_cleanse_witness :
  exists cleansed,
    VMapS [("a", VMapS [("b", VMapS [("c", VStr "d")])])] = VMapS cleansed
    /\ forall keys v ok,
        recurseMapOnKeys keys [("a", VMapI [(SStr "b", VMapI [(SStr "c", VStr "d")])])]
        = Some (v, ok) ->
        exists v',
          cleanse v = Ok v'
          /\ recurseMapOnKeys keys cleansed = Some (v', ok).
Proof.
  apply (recurseMapOnKeys_after_cleanse
           [("a", VMapI [(SStr "b", VMapI [(SStr "c", VStr "d")])])]);
    reflexivity.
Defined.

End LookupPaths.

(** ** More on [ReadActionsYaml]: what a result holds *)

Module ActionsInvariants.
Import Go Regexp Charm Vocabulary MapFacts CleanseFacts RegexpFacts ActionsFacts
       CleanseInvariants.

(** X12. A result of [ReadActionsYaml] has a spec for every action of the
    document and for nothing else. *)
Theorem ReadActionsYaml_names (X : External) (r : Reader X) (data : string)
        (doc : list (string * smap)) (acts : Actions) :
  ReadAll X r = Done data ->
  Unmarshal X data = Done doc ->
  ReadActionsYaml X r = Ok acts ->
  forall name, map_get name (ActionSpecs acts) <> None <-> In name (map fst doc).
Proof.
  intros Hread Hdec Hok name.
  rewrite (ReadActionsYaml_decoded X r data doc Hread Hdec) in Hok. split.
  - intros Hget. destruct (map_get name (ActionSpecs acts)) as [spec|] eqn:Hs;
      [|congruence].
    destruct (range_actions_provenance X doc [] acts Hok name spec Hs)
      as [Hnil|(actionSpec & Hin & _)]; [discriminate|].
    apply in_map_iff. exists (name, actionSpec). auto.
  - intros Hin. apply (range_actions_complete X doc [] acts Hok). now left.
Qed.

Lemma ReadActionsYaml_names_witness :
  map_get "snapshot" [("kill", {| Description := "No description";
                                  Params := scaffold "kill" |})] <> None
  <-> In "snapshot" (map fst [("kill", @nil (string * iface))]).
Proof.
  exact (ReadActionsYaml_names (stub_external [("kill", [])]) tt ""
           [("kill", [])]
           {| ActionSpecs := [("kill", {| Description := "No description";
                                          Params := scaffold "kill" |})] |}
           eq_refl eq_refl eq_refl "snapshot").
Defined.

(** X13. The [Params] of every spec that [ReadActionsYaml] returns were
    compiled by the schema library, so [ValidateParams] on such a spec never
    takes its schema-error exit: it returns (true, nil), or (false, err)
    with err the "JSON validation failed" error. *)
Theorem ValidateParams_on_built_spec (X : External) (r : Reader X) (acts : Actions)
        (name : string) (spec : ActionSpec) (params : iface) :
  ReadActionsYaml X r = Ok acts ->
  map_get name (ActionSpecs acts) = Some spec ->
  exists specSchemaDoc,
    NewJsonSchemaDocument X (VMapS (Params spec)) = Done specSchemaDoc
    /\ (ValidateParams X spec params = (true, None)
        \/ ValidateParams X spec params
           = (false, Some (ErrValidationFailed
                             (Join (Errors (Validate X specSchemaDoc params)) "; ")))).
Proof.
  unfold ReadActionsYaml. intros Hok Hget.
  destruct (ReadAll X r) as [data|]; [|discriminate].
  destruct (Unmarshal X data) as [doc|]; [|discriminate].
  destruct (range_actions_provenance X doc [] acts Hok name spec Hget)
    as [Hnil|(actionSpec & _ & _ & _ & d & Hd)]; [discriminate|].
  exists d. split; [assumption|]. unfold ValidateParams. rewrite Hd.
  destruct (Valid (Validate X d params)); [now left | now right].
Qed.

Lemma ValidateParams_on_built_spec_witness :
  exists specSchemaDoc : unit,
    Done tt = Done specSchemaDoc
    /\ (ValidateParams (stub_external [("kill", [])])
          {| Description := "No description"; Params := scaffold "kill" |} VNil
        = (true, None)
        \/ ValidateParams (stub_external [("kill", [])])
             {| Description := "No description"; Params := scaffold "kill" |} VNil
           = (false, Some (ErrValidationFailed (Join [] "; ")))).
Proof.
  exact (ValidateParams_on_built_spec (stub_external [("kill", [])]) tt
           {| ActionSpecs := [("kill", {| Description := "No description";
                                          Params := scaffold "kill" |})] |}
           "kill" {| Description := "No description"; Params := scaffold "kill" |}
           VNil eq_refl eq_refl).
Defined.

(** *** The entries of a built schema *)

Lemma entry_schema_In key value schema k v :
  entry_error key value = None ->
  In (k, v) (entry_schema key value schema) ->
  In (k, v) schema
  \/ (k = entry_target key
      /\ ((key = "description" \/ key = "title") /\ v = value /\ is_str v = true
          \/ key = "required" /\ v = value /\ is_slice v = true
          \/ ~ In key ["description"; "title"; "required"] /\ cleanse value = Ok v)).
Proof.
  unfold entry_error, entry_schema, entry_target.
  destruct (String.eqb key "description") eqn:E1.
  { apply String.eqb_eq in E1. subst. cbn. destruct (is_str value) eqn:Hs; [|discriminate].
    intros _ Hin. apply map_set_In in Hin as [Heq|Hin]; [|now left].
    inversion Heq; subst. right. split; [reflexivity|]. left. auto. }
  destruct (String.eqb key "title") eqn:E2.
  { apply String.eqb_eq in E2. subst. cbn. destruct (is_str value) eqn:Hs; [|discriminate].
    intros _ Hin. apply map_set_In in Hin as [Heq|Hin]; [|now left].
    inversion Heq; subst. right. split; [reflexivity|]. left. auto. }
  destruct (String.eqb key "required") eqn:E3.
  { apply String.eqb_eq in E3. subst. cbn. destruct (is_slice value) eqn:Hs; [|discriminate].
    intros _ Hin. apply map_set_In in Hin as [Heq|Hin]; [|now left].
    inversion Heq; subst. right. split; [reflexivity|]. right. left. auto. }
  cbn [orb]. apply String.eqb_neq in E1, E2, E3.
  destruct (cleanse value) as [y|e] eqn:Hc; [|discriminate].
  intros _ Hin. apply map_set_In in Hin as [Heq|Hin]; [|now left].
  inversion Heq; subst. right. split; [reflexivity|]. right. right.
  split; [|reflexivity]. cbn. intuition congruence.
Qed.

Lemma entry_target_required key :
  entry_target key = "required" -> key = "required".
Proof.
  unfold entry_target. destruct (String.eqb key "params"); [discriminate | auto].
Qed.

Lemma range_actionSpec_shapes actionSpec :
  forall desc schema desc' schema',
    range_actionSpec actionSpec desc schema = Ok (desc', schema') ->
    (forall k v, In (k, v) schema -> entry_shape k v) ->
    NoDup (map fst schema) ->
    (forall k v, In (k, v) schema' -> entry_shape k v) /\ NoDup (map fst schema').
Proof.
  induction actionSpec as [|[key value] rest IH]; intros desc schema desc' schema' H Hs Hnd.
  - inversion H; subst. auto.
  - rewrite range_actionSpec_step in H.
    destruct (entry_error key value) eqn:He; [discriminate|].
    apply (IH _ _ _ _ H).
    + intros k v Hin.
      destruct (entry_schema_In _ _ _ _ _ He Hin)
        as [Hold|[-> [([-> | ->] & -> & Hstr)|[(-> & -> & Hsl)|(Hkey & Hc)]]]]; auto.
      * right. split; [discriminate|]. now destruct value as [[]| | |].
      * right. split; [discriminate|]. now destruct value as [[]| | |].
      * left. auto.
      * right. split.
        -- intros Ht. apply entry_target_required in Ht. subst. cbn in Hkey. tauto.
        -- now apply (cleanse_canonical value).
    + unfold entry_schema.
      destruct (String.eqb key "description" || String.eqb key "title"
                || String.eqb key "required"); [now apply map_set_NoDup|].
      destruct (cleanse value); [now apply map_set_NoDup | assumption].
Qed.

(** X14. In every spec that [ReadActionsYaml] returns, each entry of
    [Params] other than [required] is canonical (string-keyed maps only, no
    reserved key), [required], when there, is a sequence, and the keys of
    [Params] are pairwise distinct. *)
Theorem built_params_shape (X : External) (r : Reader X) (acts : Actions)
        (name : string) (spec : ActionSpec) :
  ReadActionsYaml X r = Ok acts ->
  map_get name (ActionSpecs acts) = Some spec ->
  (forall k v, In (k, v) (Params spec) ->
               (k = "required" /\ is_slice v = true)
               \/ (k <> "required" /\ string_keyed v = true
                   /\ has_key "$ref" v = false /\ has_key "$schema" v = false))
  /\ NoDup (map fst (Params spec)).
Proof.
  unfold ReadActionsYaml. intros Hok Hget.
  destruct (ReadAll X r) as [data|]; [|discriminate].
  destruct (Unmarshal X data) as [doc|]; [|discriminate].
  destruct (range_actions_provenance X doc [] acts Hok name spec Hget)
    as [Hnil|(actionSpec & _ & _ & Hbuilt & _)]; [discriminate|].
  destruct (range_actionSpec_shapes _ _ _ _ _ Hbuilt) as [Hshape Hnd].
  - intros k v Hin. right. cbn in Hin.
    destruct Hin as [Heq|[Heq|[Heq|[Heq|[]]]]]; inversion Heq; subst;
      split; (discriminate || reflexivity).
  - cbn. repeat constructor; cbn; intuition discriminate.
  - split; [|exact Hnd]. intros k v Hin.
    destruct (Hshape k v Hin) as [?|[Hk Hc]]; [now left|]. right.
    apply canonical_parts in Hc as (_ & Hsk & Hr).
    rewrite has_reserved_key_keys in Hr. apply orb_false_iff in Hr. tauto.
Qed.

Lemma built_params_shape_witness :
  (forall k v, In (k, v) snapshot_schema ->
               (k = "required" /\ is_slice v = true)
               \/ (k <> "required" /\ string_keyed v = true
                   /\ has_key "$ref" v = false /\ has_key "$schema" v = false))
  /\ NoDup (map fst snapshot_schema).
Proof.
  exact (built_params_shape
           (stub_external
              [("snapshot", [("description", VStr "take snapshot");
                             ("params", snapshot_params_decoded)])])
           tt
           {| ActionSpecs :=
                [("snapshot", {| Description := "take snapshot";
                                 Params := snapshot_schema |})] |}
           "snapshot" {| Description := "take snapshot"; Params := snapshot_schema |}
           eq_refl eq_refl).
Defined.

Lemma range_actionSpec_string_entry key0 actionSpec :
  key0 = "description" \/ key0 = "title" ->
  forall desc schema desc' schema' t,
    range_actionSpec actionSpec desc schema = Ok (desc', schema') ->
    map_get key0 schema = Some (VStr t) ->
    exists t',
      map_get key0 schema' = Some (VStr t')
      /\ (t' = t \/ In (key0, VStr t') actionSpec).
Proof.
  intros Hkey0.
  induction actionSpec as [|[key value] rest IH]; intros desc schema desc' schema' t H Ht.
  - inversion H; subst. eauto.
  - rewrite range_actionSpec_step in H.
    destruct (entry_error key value) eqn:He; [discriminate|].
    destruct (String.eqb key key0) eqn:Ek.
    + apply String.eqb_eq in Ek. subst key.
      assert (Hv : exists typed, value = VStr typed
                                 /\ entry_schema key0 value schema
                                    = map_set key0 (VStr typed) schema).
      { unfold entry_error, entry_schema in *.
        destruct Hkey0 as [-> | ->]; cbn in *;
          destruct value as [[| | | |typed]| | |]; try discriminate; eauto. }
      destruct Hv as (typed & -> & Hs). rewrite Hs in H.
      destruct (IH _ _ _ _ typed H (map_get_set_same _ _ _)) as (t' & Ht' & [->|Hin]).
      * exists typed. split; [assumption|]. right. now left.
      * exists t'. split; [assumption|]. right. now right.
    + destruct (IH _ _ _ _ t H) as (t' & Ht' & Hor).
      * rewrite entry_schema_other; [assumption|].
        unfold entry_target. destruct (String.eqb key "params") eqn:Ep.
        -- destruct Hkey0 as [-> | ->]; discriminate.
        -- intros <-. now rewrite String.eqb_refl in Ek.
      * exists t'. split; [assumption|]. destruct Hor; [now left | right; now right].
Qed.

(** X15. In every spec that [ReadActionsYaml] returns, the [title] entry of
    [Params] is a string: the action's name, or a title string that the
    document gives for that action. *)
Theorem built_params_title (X : External) (r : Reader X) (data : string)
        (doc : list (string * smap)) (acts : Actions) (name : string)
        (spec : ActionSpec) :
  ReadAll X r = Done data ->
  Unmarshal X data = Done doc ->
  ReadActionsYaml X r = Ok acts ->
  map_get name (ActionSpecs acts) = Some spec ->
  exists title,
    map_get "title" (Params spec) = Some (VStr title)
    /\ (title = name
        \/ exists actionSpec,
            In (name, actionSpec) doc /\ In ("title", VStr title) actionSpec).
Proof.
  intros Hread Hdec Hok Hget.
  rewrite (ReadActionsYaml_decoded X r data doc Hread Hdec) in Hok.
  destruct (range_actions_provenance X doc [] acts Hok name spec Hget)
    as [Hnil|(actionSpec & Hin & _ & Hbuilt & _)]; [discriminate|].
  destruct (range_actionSpec_string_entry "title" actionSpec (or_intror eq_refl)
              _ _ _ _ name Hbuilt eq_refl) as (title & Htitle & Hor).
  exists title. split; [assumption|].
  destruct Hor as [?|Hgiven]; [now left|]. right. exists actionSpec. auto.
Qed.

Lemma built_params_title_witness :
  exists title,
    map_get "title"
      [("description", VStr "No description"); ("type", VStr "object");
       ("title", VStr "Stop it"); ("properties", VMapS [])]
    = Some (VStr title)
    /\ (title = "kill"
        \/ exists actionSpec,
            In ("kill", actionSpec) [("kill", [("title", VStr "Stop it")])]
            /\ In ("title", VStr title) actionSpec).
Proof.
  exact (built_params_title
           (stub_external [("kill", [("title", VStr "Stop it")])]) tt ""
           [("kill", [("title", VStr "Stop it")])]
           {| ActionSpecs :=
                [("kill", {| Description := "No description";
                             Params := [("description", VStr "No description");
                                        ("type", VStr "object");
                                        ("title", VStr "Stop it");
                                        ("properties", VMapS [])] |})] |}
           "kill"
           {| Description := "No description";
              Params := [("description", VStr "No description");
                         ("type", VStr "object");
                         ("title", VStr "Stop it");
                         ("properties", VMapS [])] |}
           eq_refl eq_refl eq_refl eq_refl).
Defined.

(** *** The order in which the keys of an action are visited *)

Lemma range_actionSpec_passes actionSpec :
  forall desc schema,
    (forall key value, In (key, value) actionSpec -> entry_error key value = None) ->
    exists desc' schema', range_actionSpec actionSpec desc schema = Ok (desc', schema').
Proof.
  induction actionSpec as [|[key value] rest IH]; intros desc schema Hall.
  - cbn. eauto.
  - rewrite range_actionSpec_step, (Hall key value (or_introl eq_refl)).
    apply IH. intros k v Hin. apply Hall. now right.
Qed.

Lemma range_actionSpec_passed actionSpec desc schema desc' schema' :
  range_actionSpec actionSpec desc schema = Ok (desc', schema') ->
  forall key value, In (key, value) actionSpec -> entry_error key value = None.
Proof.
  intros H key value Hin. destruct (entry_error key value) as [e|] eqn:He; [|reflexivity].
  destruct (range_actionSpec_fails actionSpec desc schema key value e Hin He) as [err Herr].
  congruence.
Qed.

Lemma entry_schema_target key value schema :
  entry_error key value = None ->
  map_get (entry_target key) (entry_schema key value schema)
  = Some (entry_value key value).
Proof.
  unfold entry_error, entry_schema, entry_target, entry_value.
  destruct (String.eqb key "params") eqn:Ep.
  - apply String.eqb_eq in Ep. subst. cbn.
    destruct (cleanse value); [|discriminate]. intros _. apply map_get_set_same.
  - destruct (String.eqb key "description" || String.eqb key "title"
              || String.eqb key "required") eqn:E.
    + intros _. apply map_get_set_same.
    + apply orb_false_iff in E as [E E3]. rewrite E, E3.
      destruct (cleanse value); [|discriminate]. intros _. apply map_get_set_same.
Qed.

Lemma range_actionSpec_written actionSpec :
  forall desc schema desc' schema',
    range_actionSpec actionSpec desc schema = Ok (desc', schema') ->
    NoDup (map entry_target (map fst actionSpec)) ->
    forall key value,
      In (key, value) actionSpec ->
      map_get (entry_target key) schema' = Some (entry_value key value).
Proof.
  induction actionSpec as [|[k0 v0] rest IH];
    intros desc schema desc' schema' H Hnd key value Hin; [contradiction|].
  rewrite range_actionSpec_step in H.
  destruct (entry_error k0 v0) eqn:He; [discriminate|].
  cbn [map fst] in Hnd. inversion Hnd as [|? ? Hnotin Hnd']; subst.
  destruct Hin as [Heq|Hin].
  - inversion Heq; subst.
    destruct (range_actionSpec_untouched _ _ _ _ _ H (entry_target key)) as [_ Hsame].
    rewrite (Hsame Hnotin). now apply entry_schema_target.
  - apply (IH _ _ _ _ H Hnd' key value Hin).
Qed.

(** X16. The schema built for an action does not depend on the order in
    which its keys are visited, as long as no two of them write the same
    entry ([params] and [properties] both write [properties]): visiting them
    in another order gives the same description and a schema with the same
    content, and a spec that is refused in one order is refused in every
    order.  With [params] and [properties] together the order decides. *)
Theorem key_order_irrelevant (name : string) (actionSpec actionSpec' : smap) :
  Permutation actionSpec actionSpec' ->
  (NoDup (map entry_target (map fst actionSpec)) ->
   forall desc schema,
     range_actionSpec actionSpec "No description" (scaffold name) = Ok (desc, schema) ->
     exists schema',
       range_actionSpec actionSpec' "No description" (scaffold name) = Ok (desc, schema')
       /\ same_content schema schema')
  /\ ((exists err, range_actionSpec actionSpec "No description" (scaffold name) = Err err) ->
      exists err', range_actionSpec actionSpec' "No description" (scaffold name) = Err err')
  /\ (exists schema1 schema2,
         range_actionSpec [("params", VMapS []); ("properties", VStr "x")]
           "No description" (scaffold name) = Ok ("No description", schema1)
         /\ range_actionSpec [("properties", VStr "x"); ("params", VMapS [])]
              "No description" (scaffold name) = Ok ("No description", schema2)
         /\ map_get "properties" schema1 = Some (VStr "x")
         /\ map_get "properties" schema2 = Some (VMapS [])).
Proof.
  intros Hperm. split; [|split].
  3: { eexists _, _. split; [reflexivity|]. split; [reflexivity|]. split; reflexivity. }
  - intros Hnd desc schema H.
    assert (Hpass : forall key value, In (key, value) actionSpec' ->
                                      entry_error key value = None).
    { intros key value Hin. apply (range_actionSpec_passed _ _ _ _ _ H).
      apply (Permutation_in _ (Permutation_sym Hperm) Hin). }
    destruct (range_actionSpec_passes actionSpec' "No description" (scaffold name) Hpass)
      as (desc' & schema' & H').
    assert (Hnd' : NoDup (map entry_target (map fst actionSpec'))).
    { apply (Permutation_NoDup (l := map entry_target (map fst actionSpec))); [|assumption].
      now do 2 apply Permutation_map. }
    assert (Hsame : same_content schema schema').
    { intros k.
      destruct (in_dec string_dec k (map entry_target (map fst actionSpec))) as [Hin|Hout].
      - apply in_map_iff in Hin as (key & <- & Hin).
        apply in_map_iff in Hin as ([key' value] & Hk & Hin). cbn in Hk. subst key'.
        rewrite (range_actionSpec_written _ _ _ _ _ H Hnd key value Hin).
        symmetry. apply (range_actionSpec_written _ _ _ _ _ H' Hnd' key value).
        apply (Permutation_in _ Hperm Hin).
      - destruct (range_actionSpec_untouched _ _ _ _ _ H k) as [_ Hs].
        destruct (range_actionSpec_untouched _ _ _ _ _ H' k) as [_ Hs'].
        rewrite (Hs Hout), Hs'; [reflexivity|].
        intros Hin. apply Hout.
        apply (Permutation_in (l := map entry_target (map fst actionSpec'))); [|assumption].
        apply Permutation_sym. now do 2 apply Permutation_map. }
    destruct (range_actionSpec_description _ _ _ _ _ H eq_refl) as [Hd _].
    destruct (range_actionSpec_description _ _ _ _ _ H' eq_refl) as [Hd' _].
    rewrite (Hsame "description"), Hd' in Hd. inversion Hd; subst desc'.
    exists schema'. auto.
  - intros [err Herr].
    apply range_actionSpec_error_kinds in Herr as (key & value & Hin & He).
    apply (range_actionSpec_fails actionSpec' _ _ key value err); [|assumption].
    apply (Permutation_in _ Hperm Hin).
Qed.

Lemma key_order_irrelevant_witness :
  exists schema',
    range_actionSpec [("params", snapshot_params_decoded);
                      ("description", VStr "take snapshot")]
      "No description" (scaffold "snapshot")
    = Ok ("take snapshot", schema')
    /\ same_content snapshot_schema schema'.
Proof.
  destruct (key_order_irrelevant "snapshot"
              [("description", VStr "take snapshot"); ("params", snapshot_params_decoded)]
              [("params", snapshot_params_decoded); ("description", VStr "take snapshot")])
    as [H _].
  - apply perm_swap.
  - apply (H ltac:(repeat constructor; cbn; intuition discriminate)
             "take snapshot" snapshot_schema).
    reflexivity.
Defined.

(** *** Success and failure of the whole build *)

Lemma range_actions_builds X doc :
  forall specs,
    (exists acts, range_actions X doc specs = Ok acts) <->
    (forall action, In action doc -> builds X action).
Proof.
  induction doc as [|[n a] doc IH]; intros specs.
  - cbn. split; [intros _ action [] | eauto].
  - cbn [range_actions]. split.
    + intros [acts H].
      destruct (MatchString actionNameRule n) eqn:Hn; cbn [negb] in H; [|discriminate].
      destruct (range_actionSpec a "No description" (scaffold n))
        as [[d sch]|err] eqn:Ha; [|discriminate].
      destruct (NewJsonSchemaDocument X (VMapS sch)) as [j|] eqn:Hj; [|discriminate].
      intros action [<-|Hin].
      * split; [exact Hn|]. exists d, sch, j. auto.
      * apply (proj1 (IH _) (ex_intro _ acts H) action Hin).
    + intros Hall.
      destruct (Hall (n, a) (or_introl eq_refl)) as (Hn & d & sch & j & Ha & Hj).
      cbn [fst snd] in *. rewrite Hn, Ha, Hj. cbn [negb].
      apply IH. intros action Hin. apply Hall. now right.
Qed.

(** X17. Once the document is read and decoded, [ReadActionsYaml] succeeds
    exactly when every action of the document, on its own, has a name of
    the grammar, entries that all pass, and a built schema that the library
    compiles: no action's outcome depends on another action. *)
Theorem ReadActionsYaml_all_or_nothing (X : External) (r : Reader X) (data : string)
        (doc : list (string * smap)) :
  ReadAll X r = Done data ->
  Unmarshal X data = Done doc ->
  ((exists acts, ReadActionsYaml X r = Ok acts) <->
   (forall name actionSpec,
       In (name, actionSpec) doc ->
       MatchString actionNameRule name = true
       /\ exists desc schema d,
           range_actionSpec actionSpec "No description" (scaffold name)
           = Ok (desc, schema)
           /\ NewJsonSchemaDocument X (VMapS schema) = Done d)).
Proof.
  intros Hread Hdec. rewrite (ReadActionsYaml_decoded X r data doc Hread Hdec).
  rewrite range_actions_builds. unfold builds. split.
  - intros H name actionSpec Hin. apply (H (name, actionSpec) Hin).
  - intros H [name actionSpec] Hin. apply (H name actionSpec Hin).
Qed.

Lemma ReadActionsYaml_all_or_nothing_witness :
  exists acts,
    ReadActionsYaml
      (stub_external [("kill", []); ("snapshot", [("title", VStr "Snap")])]) tt
    = Ok acts.
Proof.
  apply (proj2 (ReadActionsYaml_all_or_nothing
                  (stub_external [("kill", []); ("snapshot", [("title", VStr "Snap")])])
                  tt "" _ eq_refl eq_refl)).
  intros name actionSpec [Heq|[Heq|[]]]; inversion Heq; subst name actionSpec.
  - split; [reflexivity|]. eexists _, _, tt. split; reflexivity.
  - split; [reflexivity|]. eexists _, _, tt. split; reflexivity.
Defined.

(** X18. Once the document is read and decoded, [ReadActionsYaml] fails
    with [e] exactly when the document splits into actions that build, then
    an action that does not, and [e] is that action's error: "bad action
    name" when its name is outside the grammar; else the error of its first
    entry that does not pass (wrong type for [description], [title] or
    [required], [params] that are not a map, or the error [cleanse] gave for
    the value); else "invalid params schema for action schema", naming the
    action and carrying the message with which the schema library refused
    the schema built for it. *)
Theorem ReadActionsYaml_failures (X : External) (r : Reader X) (data : string)
        (doc : list (string * smap)) (e : error) :
  ReadAll X r = Done data ->
  Unmarshal X data = Done doc ->
  (ReadActionsYaml X r = Err e <->
   exists healthy name actionSpec rest,
     doc = (healthy ++ (name, actionSpec) :: rest)%list
     /\ (forall action, In action healthy -> builds X action)
     /\ ((MatchString actionNameRule name = false /\ e = ErrBadActionName name)
         \/ (MatchString actionNameRule name = true
             /\ exists pre key value post,
                 actionSpec = (pre ++ (key, value) :: post)%list
                 /\ (forall k v, In (k, v) pre -> entry_error k v = None)
                 /\ entry_error key value = Some e
                 /\ (e = ErrMustBeString key \/ e = ErrMustBeList key
                     \/ e = ErrParamsNotMap \/ cleanse value = Err e))
         \/ (MatchString actionNameRule name = true
             /\ exists desc schema msg,
                 range_actionSpec actionSpec "No description" (scaffold name)
                 = Ok (desc, schema)
                 /\ NewJsonSchemaDocument X (VMapS schema) = Failed msg
                 /\ e = ErrInvalidSchema name (ErrExternal msg)))).
Proof.
  intros Hread Hdec. rewrite (ReadActionsYaml_decoded X r data doc Hread Hdec). split.
  - intros H.
    destruct (range_actions_first_failure X doc [] e H)
      as (healthy & name & a & rest & Hdoc & Hall & Hcase).
    exists healthy, name, a, rest. split; [assumption|]. split; [assumption|].
    destruct Hcase as [Hname|[[Hn Ha]|Hschema]]; [now left | | now right; right].
    right. left. split; [assumption|].
    destruct (range_actionSpec_first_error _ _ _ _ Ha)
      as (pre & key & value & post & Hspec & Hpre & He).
    exists pre, key, value, post. repeat split; auto.
    clear -He. unfold entry_error in He.
    destruct (String.eqb key "description" || String.eqb key "title").
    { destruct (is_str value); inversion He; auto. }
    destruct (String.eqb key "required").
    { destruct (is_slice value); inversion He; auto. }
    destruct (cleanse value) as [y|e'].
    + destruct (String.eqb key "params" && negb (is_smap y)); inversion He; auto.
    + inversion He; subst. auto.
  - intros (healthy & name & a & rest & -> & Hall & Hcase).
    destruct Hcase
      as [[Hn ->]|[(Hn & pre & key & value & post & -> & Hpre & He & _)
                  |(Hn & d & sch & msg & Ha & Hj & ->)]].
    + now apply range_actions_stops_name.
    + apply range_actions_stops_entry; [assumption | assumption |].
      now apply range_actionSpec_stops.
    + now apply (range_actions_stops_schema X healthy name a rest [] d sch msg).
Qed.

Lemma ReadActionsYaml_failures_witness :
  ReadActionsYaml
    (stub_external
       [("kill", []);
        ("snapshot", [("title", VStr "Snap"); ("extra", VMapI [(SInt 1, VNil)])])]) tt
  = Err ErrNonStringKey.
Proof.
  apply (proj2 (ReadActionsYaml_failures
                  (stub_external
                     [("kill", []);
                      ("snapshot", [("title", VStr "Snap");
                                    ("extra", VMapI [(SInt 1, VNil)])])])
                  tt "" _ ErrNonStringKey eq_refl eq_refl)).
  exists [("kill", [])], "snapshot",
    [("title", VStr "Snap"); ("extra", VMapI [(SInt 1, VNil)])], [].
  split; [reflexivity|]. split.
  - intros action [<-|[]]. split; [reflexivity|].
    eexists _, _, tt. split; reflexivity.
  - right. left. split; [reflexivity|].
    exists [("title", VStr "Snap")], "extra", (VMapI [(SInt 1, VNil)]), [].
    split; [reflexivity|]. split.
    + intros k v [Heq|[]]. inversion Heq; subst. reflexivity.
    + split; [reflexivity|]. right. right. right. reflexivity.
Defined.

End ActionsInvariants.

(** ** More on resource descriptors *)

Module ResourceInvariants.
Import Go Resource Vocabulary ResourceFacts.

Lemma prefix_iff sub :
  forall s, String.prefix sub s = true <-> exists b, s = sub ++ b.
Proof.
  induction sub as [|a sub IH]; intros s.
  - destruct s; simpl; split; eauto.
  - destruct s as [|c s]; simpl.
    + split; [discriminate | intros [b Hb]; discriminate].
    + destruct (ascii_dec a c) as [->|Hne].
      * rewrite IH. split; intros [b Hb]; exists b; congruence.
      * split; [discriminate | intros [b Hb]; congruence].
Qed.

(** [Contains s sub] says that [sub] occurs somewhere in [s]. *)
Lemma Contains_iff s sub :
  Contains s sub = true <-> exists a b, s = a ++ sub ++ b.
Proof.
  induction s as [|c s IH]; cbn [Contains].
  - rewrite orb_false_r, prefix_iff. split.
    + intros [b Hb]. exists "", b. exact Hb.
    + intros (a & b & Hab). destruct a; [|discriminate]. exists b. exact Hab.
  - rewrite orb_true_iff, prefix_iff, IH. split.
    + intros [[b Hb]|(a & b & Hab)].
      * exists "", b. exact Hb.
      * exists (String c a), b. simpl. now rewrite Hab.
    + intros (a & b & Hab). destruct a as [|c' a].
      * left. exists b. exact Hab.
      * right. simpl in Hab. inversion Hab; subst. eauto.
Qed.

(** X19. [Meta.Validate] returns nil exactly for a descriptor with a name,
    a type that is known and recognized, a path, and, for a file, no "/"
    anywhere in the path. *)
Theorem Validate_nil_iff (meta : Meta) :
  Validate meta = None <->
  Name meta <> ""
  /\ Type_ meta <> TypeUnknown
  /\ Type_Validate (Type_ meta) = None
  /\ Path meta <> ""
  /\ (Type_ meta = TypeFile -> forall a b, Path meta <> a ++ "/" ++ b).
Proof.
  unfold Validate.
  destruct (String.eqb (Name meta) "") eqn:Hn.
  { apply String.eqb_eq in Hn. split; [discriminate | tauto]. }
  apply String.eqb_neq in Hn.
  destruct (ResourceType_eqb (Type_ meta) TypeUnknown) eqn:Ht.
  { apply ResourceType_eqb_eq in Ht. split; [discriminate | tauto]. }
  apply ResourceType_eqb_neq in Ht.
  destruct (Type_Validate (Type_ meta)) as [err|] eqn:Hv.
  { split; [discriminate | intros (_ & _ & H & _); discriminate]. }
  destruct (String.eqb (Path meta) "") eqn:Hp.
  { apply String.eqb_eq in Hp. split; [discriminate | tauto]. }
  apply String.eqb_neq in Hp.
  destruct (ResourceType_eqb (Type_ meta) TypeFile) eqn:Hf.
  - apply ResourceType_eqb_eq in Hf.
    destruct (Contains (Path meta) "/") eqn:Hc.
    + split; [discriminate|]. intros (_ & _ & _ & _ & Hslash).
      apply Contains_iff in Hc as (a & b & Hab). now destruct (Hslash Hf a b).
    + split; [|reflexivity]. intros _.
      split; [assumption|]. split; [assumption|]. split; [reflexivity|].
      split; [assumption|].
      intros _ a b Hab. apply not_true_iff_false in Hc. apply Hc.
      apply Contains_iff. eauto.
  - apply ResourceType_eqb_neq in Hf. split; [|reflexivity]. intros _.
    split; [assumption|]. split; [assumption|]. split; [reflexivity|].
    split; [assumption|]. intros Hfile. contradiction.
Qed.

Lemma Validate_nil_iff_witness :
  Validate {| Name := "eggs"; Type_ := TypeFile; Path := "eggs.tgz"; Comment := "" |}
  = None.
Proof.
  apply (proj2 (Validate_nil_iff
                  {| Name := "eggs"; Type_ := TypeFile; Path := "eggs.tgz";
                     Comment := "" |})).
  split; [discriminate|]. split; [discriminate|]. split; [reflexivity|].
  split; [discriminate|].
  intros _ a b Hab.
  assert (Hc : Contains "eggs.tgz" "/" = true).
  { apply Contains_iff. exists a, b. exact Hab. }
  vm_compute in Hc. discriminate.
Defined.

Lemma readable_dec rMap key :
  readable rMap key
  \/ exists v, map_get key rMap = Some v /\ v <> VNil /\ forall val, v <> VStr val.
Proof.
  unfold readable.
  destruct (map_get key rMap) as [[[| | | |val]| | |]|]; eauto;
    right; eexists; (split; [reflexivity|]); split; intros; discriminate.
Qed.

(** X20. [ParseMeta] returns, instead of stopping on a failed type
    assertion, exactly when the data is nil, or is a string-keyed map in
    which each of [type], [filename] and [comment] is absent, nil or a
    string.  Data of any other kind, an interface-keyed map among them,
    stops it. *)
Theorem ParseMeta_returns_iff (name : string) (data : iface) :
  ParseMeta name data <> None <->
  data = VNil
  \/ exists rMap,
      data = VMapS rMap
      /\ readable rMap "type" /\ readable rMap "filename" /\ readable rMap "comment".
Proof.
  split.
  - intros H. destruct data as [[| | | |s]|l|rMap|m]; try (now destruct H); [now left|].
    right. exists rMap. split; [reflexivity|].
    unfold ParseMeta, map_index in H.
    destruct (readable_dec rMap "type") as [Ht|(v & Hv & Hnil & Hstr)].
    + destruct (readable_dec rMap "filename") as [Hf|(v & Hv & Hnil & Hstr)].
      * destruct (readable_dec rMap "comment") as [Hc|(v & Hv & Hnil & Hstr)]; [auto|].
        exfalso. apply H. rewrite Hv.
        destruct Ht as [Ht|[Ht|[t Ht]]], Hf as [Hf|[Hf|[f Hf]]]; rewrite Ht, Hf; cbn;
          destruct v as [[| | | |val]| | |]; try reflexivity;
          solve [now destruct Hnil | now destruct (Hstr val)].
      * exfalso. apply H. rewrite Hv.
        destruct Ht as [Ht|[Ht|[t Ht]]]; rewrite Ht; cbn;
          destruct v as [[| | | |val]| | |]; try reflexivity;
          solve [now destruct Hnil | now destruct (Hstr val)].
    + exfalso. apply H. rewrite Hv. cbn.
      destruct v as [[| | | |val]| | |]; try reflexivity;
        solve [now destruct Hnil | now destruct (Hstr val)].
  - intros [->|(rMap & -> & Ht & Hf & Hc)]; [discriminate|].
    unfold ParseMeta, map_index.
    destruct Ht as [Ht|[Ht|[t Ht]]], Hf as [Hf|[Hf|[f Hf]]], Hc as [Hc|[Hc|[c Hc]]];
      rewrite Ht, Hf, Hc; cbn; discriminate.
Qed.

Lemma ParseMeta_returns_iff_witness :
  ParseMeta "eggs" (VMapS [("type", VStr "file"); ("filename", VNil)]) <> None.
Proof.
  apply (proj2 (ParseMeta_returns_iff "eggs"
                  (VMapS [("type", VStr "file"); ("filename", VNil)]))).
  right. exists [("type", VStr "file"); ("filename", VNil)].
  split; [reflexivity|]. split; [|split].
  - right. right. exists "file". reflexivity.
  - right. left. reflexivity.
  - left. reflexivity.
Defined.

(** X21. [ParseMeta] reads the three fields [type], [filename] and
    [comment] and nothing else, and takes a nil field for an absent one:
    two maps that agree on those fields, up to that, parse alike. *)
Theorem ParseMeta_reads_three_fields (name : string) (rMap rMap' : smap) :
  present rMap "type" = present rMap' "type" ->
  present rMap "filename" = present rMap' "filename" ->
  present rMap "comment" = present rMap' "comment" ->
  ParseMeta name (VMapS rMap) = ParseMeta name (VMapS rMap').
Proof.
  unfold present, ParseMeta, map_index. intros Ht Hf Hc.
  assert (Hsame : forall key,
             match map_get key rMap with Some VNil => None | other => other end
             = match map_get key rMap' with Some VNil => None | other => other end ->
             match fst match map_get key rMap with
                       | Some answer => (answer, true)
                       | None => (VNil, false)
                       end with
             | VNil => VNil
             | other => other
             end
             = match fst match map_get key rMap' with
                         | Some answer => (answer, true)
                         | None => (VNil, false)
                         end with
               | VNil => VNil
               | other => other
               end).
  { intros key H.
    destruct (map_get key rMap) as [[[| | | |?]| | |]|],
             (map_get key rMap') as [[[| | | |?]| | |]|];
      cbn in *; congruence. }
  pose proof (Hsame "type" Ht) as Et.
  pose proof (Hsame "filename" Hf) as Ef.
  pose proof (Hsame "comment" Hc) as Ec.
  clear Hsame Ht Hf Hc.
  destruct (map_get "type" rMap) as [[[| | | |?]| | |]|],
           (map_get "type" rMap') as [[[| | | |?]| | |]|];
    cbn in Et |- *; try discriminate; inversion Et; subst;
    destruct (map_get "filename" rMap) as [[[| | | |?]| | |]|],
             (map_get "filename" rMap') as [[[| | | |?]| | |]|];
    cbn in Ef |- *; try discriminate; inversion Ef; subst;
    destruct (map_get "comment" rMap) as [[[| | | |?]| | |]|],
             (map_get "comment" rMap') as [[[| | | |?]| | |]|];
    cbn in Ec |- *; try discriminate; inversion Ec; subst; reflexivity.
Qed.

Lemma ParseMeta_reads_three_fields_witness :
  ParseMeta "eggs" (VMapS [("name", VStr "spam"); ("filename", VStr "eggs.tgz");
                           ("comment", VNil)])
  = ParseMeta "eggs" (VMapS [("filename", VStr "eggs.tgz")]).
Proof.
  apply ParseMeta_reads_three_fields; reflexivity.
Defined.

Lemma Validate_empty_path meta :
  Path meta = "" ->
  exists err, Validate meta = Some err /\ forall path, err <> FilenameHasSlash path.
Proof.
  unfold Validate. intros ->.
  destruct (String.eqb (Name meta) ""); [eexists; split; [reflexivity | discriminate]|].
  destruct (ResourceType_eqb (Type_ meta) TypeUnknown);
    [eexists; split; [reflexivity | discriminate]|].
  destruct (Type_Validate (Type_ meta));
    eexists; (split; [reflexivity | discriminate]).
Qed.

Lemma ParseMeta_path name rMap meta :
  ParseMeta name (VMapS rMap) = Some meta ->
  Path meta = match map_get "filename" rMap with
              | Some (VStr val) => val
              | _ => ""
              end.
Proof.
  unfold ParseMeta, map_index. intros H.
  destruct (map_get "type" rMap) as [[[| | | |t]| | |]|];
    cbn in H; try discriminate;
    destruct (map_get "filename" rMap) as [[[| | | |f]| | |]|];
    cbn in H; try discriminate;
    destruct (map_get "comment" rMap) as [[[| | | |c]| | |]|];
    cbn in H; try discriminate; now inversion H.
Qed.

(** X22. A descriptor parsed from nil data, or from a map whose [filename]
    is absent, nil or the empty string, never validates, whatever its name
    and type: [Meta.Validate] answers with one of its errors, and not the
    one about "/". *)
Theorem parsed_without_filename_invalid (name : string) (data : iface) (meta : Meta) :
  ParseMeta name data = Some meta ->
  data = VNil
  \/ (exists rMap,
         data = VMapS rMap
         /\ (map_get "filename" rMap = None \/ map_get "filename" rMap = Some VNil
             \/ map_get "filename" rMap = Some (VStr ""))) ->
  exists err, Validate meta = Some err /\ forall path, err <> FilenameHasSlash path.
Proof.
  intros Hparse Hdata. apply Validate_empty_path.
  destruct Hdata as [->|(rMap & -> & Hf)].
  - cbn in Hparse. now inversion Hparse.
  - rewrite (ParseMeta_path name rMap meta Hparse).
    destruct Hf as [Hf|[Hf|Hf]]; now rewrite Hf.
Qed.

Lemma parsed_without_filename_invalid_witness :
  exists err,
    Validate {| Name := "eggs"; Type_ := TypeFile; Path := ""; Comment := "" |}
    = Some err
    /\ forall path, err <> FilenameHasSlash path.
Proof.
  apply (parsed_without_filename_invalid "eggs" (VMapS [("type", VStr "file")])).
  - reflexivity.
  - right. exists [("type", VStr "file")]. split; [reflexivity|]. left. reflexivity.
Defined.

End ResourceInvariants.
